(** * DirectoryGenerator: a shallow embedding of [generate_dirs.py]

    The program reads a YAML tree, walks it and creates one directory per
    name, records the resolved path of every directory it created and
    writes a Markdown report.  The embedding follows the Python text:

    - text is [string], read as the UTF-8 bytes of the Python [str]
      (byte-wise comparison of UTF-8 is the code point order Python's
      [sorted] uses, and [strip] removes the UTF-8 forms of the code points
      for which [str.isspace] holds);
    - a [pathlib] path is its anchor and its tuple of parts (POSIX flavour);
    - the filesystem, the clock, the standard output and the YAML library
      are an interface ([World], [YamlLib]) the program is parameterised
      by; [Sim] is a small symlink-free POSIX instance of it;
    - the generator object is a state record threaded through a state and
      exception monad; the logger is the append-only list [log]. *)

From Stdlib Require Import Ascii.
From Stdlib Require String.
From stdpp Require Import base list strings pretty gmap sorting relations.

Set Warnings "-register-all,-clear-no-such-hyp".
Set Default Proof Using "Type*".

(** ** Text *)

Module Text.

(** The value of a byte. *)
Definition byte (c : ascii) : N := N_of_ascii c.

(** [str.isspace] for one code point: U+0009..U+000D, U+001C..U+0020,
    U+0085, U+00A0, U+1680, U+2000..U+200A, U+2028, U+2029, U+202F,
    U+205F and U+3000. *)
Definition is_space (cp : N) : bool :=
  ((9 <=? cp)%N && (cp <=? 13)%N) || ((28 <=? cp)%N && (cp <=? 32)%N)
  || (cp =? 133)%N || (cp =? 160)%N || (cp =? 5760)%N
  || ((8192 <=? cp)%N && (cp <=? 8202)%N)
  || (cp =? 8232)%N || (cp =? 8233)%N || (cp =? 8239)%N
  || (cp =? 8287)%N || (cp =? 12288)%N.

(** A continuation byte of UTF-8: [10xxxxxx]. *)
Definition is_cont (c : ascii) : bool := (128 <=? byte c)%N && (byte c <=? 191)%N.

(** The code point of a sequence of two bytes, [110xxxxx 10xxxxxx], and of
    three bytes, [1110xxxx 10xxxxxx 10xxxxxx]; overlong forms are no code
    point. *)
Definition cp2 (a b : ascii) : option N :=
  if (194 <=? byte a)%N && (byte a <=? 223)%N && is_cont b
  then Some ((byte a - 192) * 64 + (byte b - 128))%N
  else None.

Definition cp3 (a b c : ascii) : option N :=
  if (224 <=? byte a)%N && (byte a <=? 239)%N && is_cont b && is_cont c
  then let cp := ((byte a - 224) * 4096 + (byte b - 128) * 64 + (byte c - 128))%N in
       if (2048 <=? cp)%N then Some cp else None
  else None.

(** A white space character that takes one, two or three bytes (there is
    none of four). *)
Definition space1 (a : ascii) : bool := (byte a <? 128)%N && is_space (byte a).

Definition space2 (a b : ascii) : bool :=
  match cp2 a b with Some cp => is_space cp | None => false end.

Definition space3 (a b c : ascii) : bool :=
  match cp3 a b c with Some cp => is_space cp | None => false end.

(** [str.lstrip()] *)
Fixpoint lstrip (s : string) : string :=
  match s with
  | EmptyString => EmptyString
  | String a r1 =>
      if space1 a then lstrip r1 else
      match r1 with
      | EmptyString => s
      | String b r2 =>
          if space2 a b then lstrip r2 else
          match r2 with
          | EmptyString => s
          | String c r3 => if space3 a b c then lstrip r3 else s
          end
      end
  end.

(** The text is made of white space characters only ([''] included). *)
Fixpoint all_space (s : string) : bool :=
  match s with
  | EmptyString => true
  | String a r1 =>
      if space1 a then all_space r1 else
      match r1 with
      | EmptyString => false
      | String b r2 =>
          if space2 a b then all_space r2 else
          match r2 with
          | EmptyString => false
          | String c r3 => space3 a b c && all_space r3
          end
      end
  end.

(** A text made of white space, character by character. *)
Inductive spaces : string → Prop :=
  | spaces_nil : spaces EmptyString
  | spaces_1 a r : space1 a = true → spaces r → spaces (String a r)
  | spaces_2 a b r :
      space1 a = false → space2 a b = true → spaces r →
      spaces (String a (String b r))
  | spaces_3 a b c r :
      space1 a = false → space2 a b = false → space3 a b c = true → spaces r →
      spaces (String a (String b (String c r))).

(** [str.rstrip()]: the text up to the point from which only white space
    follows. *)
Fixpoint rstrip (s : string) : string :=
  if all_space s then EmptyString
  else match s with
       | EmptyString => EmptyString
       | String a r => String a (rstrip r)
       end.

(** [str.strip()] *)
Definition strip (s : string) : string := rstrip (lstrip s).

(** [bytes.strip()] removes the ASCII white space [b' \t\n\r\x0b\f']. *)
Definition is_bspace (c : ascii) : bool :=
  ((9 <=? byte c)%N && (byte c <=? 13)%N) || (byte c =? 32)%N.

Fixpoint bytes_lstrip (s : string) : string :=
  match s with
  | EmptyString => EmptyString
  | String c s' => if is_bspace c then bytes_lstrip s' else s
  end.

Fixpoint bytes_rstrip (s : string) : string :=
  match s with
  | EmptyString => EmptyString
  | String c s' =>
      match bytes_rstrip s' with
      | EmptyString => if is_bspace c then EmptyString else String c EmptyString
      | r => String c r
      end
  end.

Definition bytes_strip (s : string) : string := bytes_rstrip (bytes_lstrip s).

(** [chr(cp)] in UTF-8, for a code point of the basic plane. *)
Definition chr (cp : N) : string :=
  if (cp <? 128)%N then String (ascii_of_N cp) EmptyString
  else if (cp <? 2048)%N then
    String (ascii_of_N (192 + cp / 64)) (String (ascii_of_N (128 + cp mod 64)) EmptyString)
  else
    String (ascii_of_N (224 + cp / 4096))
      (String (ascii_of_N (128 + (cp / 64) mod 64))
         (String (ascii_of_N (128 + cp mod 64)) EmptyString)).

(** [sep.join(xs)] *)
Fixpoint join (sep : string) (xs : list string) : string :=
  match xs with
  | [] => EmptyString
  | [x] => x
  | x :: rest => x +:+ sep +:+ join sep rest
  end.

(** [s.split(c)] for a one-character separator: never the empty list. *)
Fixpoint split (c : ascii) (s : string) : list string :=
  match s with
  | EmptyString => [EmptyString]
  | String a s' =>
      if Ascii.eqb a c then EmptyString :: split c s'
      else match split c s' with
           | [] => [String a EmptyString]
           | w :: ws => String a w :: ws
           end
  end.

(** [s * n] for a count that may be negative in Python is [repeat] on the
    truncated count. *)
Fixpoint times (s : string) (n : nat) : string :=
  match n with
  | O => EmptyString
  | S n' => s +:+ times s n'
  end.

Definition string_le (a b : string) : Prop := String.leb a b = true.

End Text.

(** ** [pathlib] paths, POSIX flavour *)

Module Pathlib.
Import Text.

Record path := Path { anchor : string; parts : list string }.

#[global] Instance path_eq_dec : EqDecision path.
Proof. solve_decision. Defined.

(** [posixpath.splitroot]: one leading slash, or exactly two, is the root. *)
Definition splitroot (s : string) : string * string :=
  match s with
  | String "/" r1 =>
      match r1 with
      | String "/" r2 =>
          match r2 with
          | String "/" _ => ("/", r1)
          | _ => ("//", r2)
          end
      | _ => ("/", r1)
      end
  | _ => (EmptyString, s)
  end.

Definition proper_part (x : string) : bool :=
  negb (String.eqb x EmptyString) && negb (String.eqb x ".").

(** [Path(s)]: empty and [.] components are dropped. *)
Definition parse (s : string) : path :=
  let '(root, rest) := splitroot s in
  Path root (filter (fun x => proper_part x = true) (split "/" rest)).

(** [p / s]: an absolute right operand replaces the left one. *)
Definition joinpath (p : path) (s : string) : path :=
  let q := parse s in
  if String.eqb (anchor q) EmptyString then Path (anchor p) (parts p ++ parts q)
  else q.

(** [str(p)] *)
Definition to_str (p : path) : string :=
  match anchor p, parts p with
  | EmptyString, [] => "."
  | a, ps => a +:+ join "/" ps
  end.

Fixpoint strip_prefix (pre l : list string) : option (list string) :=
  match pre, l with
  | [], _ => Some l
  | x :: pre', y :: l' => if String.eqb x y then strip_prefix pre' l' else None
  | _ :: _, [] => None
  end.

End Pathlib.

(** ** Values, exceptions and the generator's state *)

Module Py.
Import Text Pathlib.

(** What [yaml.safe_load] returns: scalars (also as mapping keys),
    sequences and insertion-ordered mappings.  The scalars are [None],
    [bool], [int], [float], [str], the [bytes] of a [!!binary] node, and
    the other objects the loader builds (the [date] or [datetime] of a
    timestamp, a [set]). *)
Inductive scalar :=
  | SNull
  | SBool (b : bool)
  | SInt (z : Z)
  | SFloat (repr : string)
  | SStr (s : string)
  | SBytes (b : string)
  | SOther (repr : string).

Inductive yaml :=
  | YScalar (v : scalar)
  | YList (items : list yaml)
  | YDict (items : list (scalar * yaml)).

#[global] Instance scalar_eq_dec : EqDecision scalar.
Proof. solve_decision. Defined.

Inductive exn :=
  | AttributeError
  | IndexError
  | KeyError
  | TypeError
  | ValueError
  | OSError
  | UnicodeEncodeError
  | YAMLError.

#[global] Instance exn_eq_dec : EqDecision exn.
Proof. solve_decision. Defined.

Inductive result (A : Type) :=
  | Ok (a : A)
  | Raise (e : exn).
Arguments Ok {A} a.
Arguments Raise {A} e.

Definition is_ok {A} (r : result A) : bool :=
  match r with Ok _ => true | Raise _ => false end.

(** The records the logger receives, one constructor per call site. *)
Inductive event :=
  | ConfigLoaded (src : string)
  | ConfigFailed (e : exn)
  | DirCreated (p : path)
  | DirMissing (p : path)
  | DirError (p : path) (e : exn)
  | ChildNode (p : path)
  | EmptyNode
  | Unsupported
  | Started
  | Finished (count : nat)
  | ReadmeDone
  | ReadmeFailed
  | Interrupted.

(** The messages [generate_readme] prints, one constructor per call of
    [print]. *)
Inductive printed :=
  | ReadmeWritten (readme_path : string)
  | ReadmeNotWritten (e : exn).

(** The environment of the program: [Path.mkdir(parents=True,
    exist_ok=True)], [Path.exists], [Path.resolve], writing and reading a
    text file, the formatted clock, and [print] on the standard output,
    which raises when the stream cannot take the message. *)
Class World (W : Type) := {
  path_mkdir : path -> W -> result unit * W;
  path_exists : path -> W -> bool;
  path_resolve : path -> W -> result path;
  write_text : string -> string -> W -> result unit * W;
  read_text : string -> W -> result string;
  now : W -> string;
  print_out : printed -> W -> result unit * W
}.

(** The YAML library: [yaml.safe_load] and [yaml.dump]. *)
Class YamlLib := {
  safe_load : string -> result yaml;
  dump : yaml -> string
}.

Record state (W : Type) := State {
  world : W;
  created_dirs : gset string;
  log : list event
}.
Arguments State {W}.
Arguments world {W}.
Arguments created_dirs {W}.
Arguments log {W}.

(** State and exception monad: an exception keeps the state reached. *)
Definition M (W A : Type) : Type := state W -> result A * state W.

Definition ret {W A} (a : A) : M W A := fun s => (Ok a, s).

Definition bind {W A B} (m : M W A) (k : A -> M W B) : M W B :=
  fun s => match m s with
           | (Ok a, s') => k a s'
           | (Raise e, s') => (Raise e, s')
           end.

Definition raise {W A} (e : exn) : M W A := fun s => (Raise e, s).

(** [try: m  except Exception as e: h e] *)
Definition try_except {W A} (m : M W A) (h : exn -> M W A) : M W A :=
  fun s => match m s with
           | (Ok a, s') => (Ok a, s')
           | (Raise e, s') => h e s'
           end.

Definition lift {W A} (r : result A) : M W A := fun s => (r, s).

Definition logger {W} (ev : event) : M W unit :=
  fun s => (Ok tt, State (world s) (created_dirs s) (log s ++ [ev])).

(** [for x in l: f x] *)
Definition for_each {W A} (f : A -> M W unit) : list A -> M W unit :=
  fix go (l : list A) : M W unit :=
    match l with
    | [] => ret tt
    | x :: rest => bind (f x) (fun _ => go rest)
    end.

End Py.

(** ** The program: class [DirectoryGenerator] *)

Module Gen.
Import Text Pathlib Py.

Notation "'let*' x ':=' c 'in' k" := (bind c (fun x => k))
  (at level 10, x name, c at level 100, k at level 200, only parsing).
Notation "c1 ';;;' c2" := (bind c1 (fun _ => c2))
  (at level 100, c2 at level 200, right associativity, only parsing).

#[global] Instance string_le_dec (a b : string) : Decision (string_le a b).
Proof. unfold string_le. apply _. Defined.

(** [sorted(created_dirs)] *)
Definition sorted (cd : gset string) : list string :=
  merge_sort string_le (elements cd).

Definition nl : string := String (ascii_of_nat 10) EmptyString.

(** What [dir_name.strip()] returns: a [str] or a [bytes]. *)
Inductive stripped :=
  | Str (s : string)
  | Bytes (b : string).

(** [dir_name.strip()]: only [str] and [bytes] have the method. *)
Definition strip_name (v : yaml) : result stripped :=
  match v with
  | YScalar (SStr s) => Ok (Str (strip s))
  | YScalar (SBytes b) => Ok (Bytes (bytes_strip b))
  | _ => Raise AttributeError
  end.

(** [config['directory_structure']] *)
Fixpoint dict_get (key : scalar) (items : list (scalar * yaml)) : option yaml :=
  match items with
  | [] => None
  | (k, v) :: rest => if decide (k = key) then Some v else dict_get key rest
  end.

Definition getitem (config : yaml) (key : string) : result yaml :=
  match config with
  | YDict items =>
      match dict_get (SStr key) items with
      | Some v => Ok v
      | None => Raise KeyError
      end
  | _ => Raise TypeError
  end.

(** [current_path / name]: the operator takes a [str]; for a [bytes]
    neither operand defines it. *)
Definition truediv (p : path) (name : stripped) : result path :=
  match name with
  | Str s => Ok (joinpath p s)
  | Bytes _ => Raise TypeError
  end.

(** [Path(dir_path).relative_to(root)] *)
Definition relative_to (p root : path) : result path :=
  if String.eqb (anchor p) (anchor root) then
    match strip_prefix (parts root) (parts p) with
    | Some rest => Ok (Path EmptyString rest)
    | None => Raise ValueError
    end
  else Raise ValueError.

(** One turn of the loop that fills [dir_tree]. *)
Definition tree_line (root : path) (dir_path : string) : result string :=
  match relative_to (parse dir_path) root with
  | Ok rel_path =>
      let indent := times "    " (length (parts rel_path) - 1) in
      match last (parts rel_path) with
      | Some label => Ok (indent +:+ "- " +:+ label)
      | None => Raise IndexError
      end
  | Raise ValueError => Ok ("- " +:+ dir_path)
  | Raise e => Raise e
  end.

Fixpoint dir_tree (root : path) (dirs : list string) : result (list string) :=
  match dirs with
  | [] => Ok []
  | d :: rest =>
      match tree_line root d with
      | Ok line =>
          match dir_tree root rest with
          | Ok lines => Ok (line :: lines)
          | Raise e => Raise e
          end
      | Raise e => Raise e
      end
  end.

Section Generator.
Context {W : Type} `{World W} `{YamlLib}.

Definition get_created : M W (gset string) := fun s => (Ok (created_dirs s), s).

Definition add_created (x : string) : M W unit :=
  fun s => (Ok tt, State (world s) ({[x]} ∪ created_dirs s) (log s)).

Definition do_mkdir (p : path) : M W unit :=
  fun s => let '(r, w) := path_mkdir p (world s) in
           (r, State w (created_dirs s) (log s)).

Definition do_exists (p : path) : M W bool :=
  fun s => (Ok (path_exists p (world s)), s).

Definition do_resolve (p : path) : M W path :=
  fun s => (path_resolve p (world s), s).

Definition do_write (name text : string) : M W unit :=
  fun s => let '(r, w) := write_text name text (world s) in
           (r, State w (created_dirs s) (log s)).

Definition do_read (name : string) : M W string :=
  fun s => (read_text name (world s), s).

Definition get_now : M W string := fun s => (Ok (now (world s)), s).

Definition do_print (msg : printed) : M W unit :=
  fun s => let '(r, w) := print_out msg (world s) in
           (r, State w (created_dirs s) (log s)).

Definition _load_config (path : string) : M W yaml :=
  try_except
    (let* text := do_read path in
     let* config := lift (safe_load text) in
     logger (ConfigLoaded path) ;;;
     lift (getitem config "directory_structure"))
    (fun e => logger (ConfigFailed e) ;;; raise e).

Definition _create_dir (path : path) : M W bool :=
  try_except
    (do_mkdir path ;;;
     let* present := do_exists path in
     if negb present then
       logger (DirMissing path) ;;; ret false
     else
       let* resolved := do_resolve path in
       add_created (to_str resolved) ;;;
       logger (DirCreated path) ;;;
       ret true)
    (fun e => logger (DirError path e) ;;; ret false).

(** The body of the loop over a mapping's items, given the recursive call. *)
Definition branch_item (rec : yaml -> path -> M W unit) (current_path : path)
    (item : scalar * yaml) : M W unit :=
  let '(dir_name, children) := item in
  let* name := lift (strip_name (YScalar dir_name)) in
  let* new_path := lift (truediv current_path name) in
  let* created := _create_dir new_path in
  if created then
    logger (ChildNode new_path) ;;; rec children new_path
  else ret tt.

(** The body of the loop over a sequence. *)
Definition leaf_item (current_path : path) (dir_name : yaml) : M W unit :=
  let* name := lift (strip_name dir_name) in
  let* new_path := lift (truediv current_path name) in
  _create_dir new_path ;;; ret tt.

Fixpoint _process_node (node : yaml) (current_path : path) {struct node} : M W unit :=
  match node with
  | YDict items =>
      for_each (branch_item _process_node current_path) items
  | YList items =>
      for_each (leaf_item current_path) items
  | YScalar SNull => logger EmptyNode
  | YScalar _ => logger Unsupported
  end.

Definition readme_head (stamp : string) (count : nat) : list string :=
  [ "# 目录体系结构说明" +:+ nl;
    "本目录结构按照十进制分类体系自动生成" +:+ nl;
    "**生成时间**：" +:+ stamp +:+ nl;
    "**总目录数**：" +:+ pretty count +:+ nl +:+ nl;
    "## 完整目录树" +:+ nl ].

Definition readme_tail (config : yaml) : list string :=
  [ nl +:+ "## 使用说明";
    "1. 本结构通过 `generate_dirs.py` 自动生成";
    "2. 修改 `config.yaml` 可调整目录结构";
    "3. 重新运行脚本将保留已存在目录" +:+ nl;
    "## 配置文件示例";
    "```yaml";
    dump (YDict [(SStr "directory_structure", config)]);
    "```" ].

Definition generate_readme (config : yaml) (root : path) : M W bool :=
  let readme_path := "README.md" in
  let* stamp := get_now in
  let* cd := get_created in
  let* tree := lift (dir_tree root (sorted cd)) in
  let markdown_lines := readme_head stamp (size cd) ++ tree ++ readme_tail config in
  try_except
    (do_write readme_path (join nl markdown_lines) ;;;
     do_print (ReadmeWritten readme_path) ;;;
     ret true)
    (fun e => do_print (ReadmeNotWritten e) ;;; ret false).

Definition generate (config : yaml) (root : path) : M W (list string) :=
  logger Started ;;;
  try_except
    (_process_node config root ;;;
     let* cd := get_created in
     logger (Finished (size cd)) ;;;
     let* readme_result := generate_readme config root in
     logger (if readme_result then ReadmeDone else ReadmeFailed) ;;;
     let* cd := get_created in
     ret (sorted cd))
    (fun e => logger Interrupted ;;; raise e).

(** A fresh generator object over the world [w]. *)
Definition init (w : W) : state W := State w ∅ [].

End Generator.

End Gen.

(** ** A simulated world

    A symlink-free POSIX tree: the directories, the regular files with
    their text, the names the process may not create, the working
    directory, and the standard output with what was printed on it and
    whether its encoding takes the messages of the program.  A node is
    the list of its components below [/]. *)

Module Sim.
Import Text Pathlib Py.

Definition node := list string.

Record fsys := Fsys {
  cwd : node;
  dirs : gset node;
  files : gmap node string;
  denied : gset node;
  clock : string;
  shown : list printed;
  console_ok : bool
}.

(** [NAME_MAX]: a component of more bytes is refused. *)
Definition name_max : nat := 255.

Definition too_long (c : string) : bool := (name_max <? String.length c)%nat.

Definition is_dir (n : node) (fs : fsys) : bool :=
  bool_decide (n = []) || bool_decide (n ∈ dirs fs).

Definition is_file (n : node) (fs : fsys) : bool :=
  bool_decide (is_Some (files fs !! n)).

Definition is_denied (n : node) (fs : fsys) : bool :=
  bool_decide (n ∈ denied fs).

Definition start (p : path) (fs : fsys) : node :=
  if String.eqb (anchor p) EmptyString then cwd fs else [].

(** One component of a lookup: [..] goes up, any other name goes down. *)
Definition step (n : node) (c : string) : node :=
  if String.eqb c ".." then removelast n else n ++ [c].

Definition target (p : path) (fs : fsys) : node :=
  fold_left step (parts p) (start p fs).

Definition add_dir (n : node) (fs : fsys) : fsys :=
  Fsys (cwd fs) ({[n]} ∪ dirs fs) (files fs) (denied fs) (clock fs)
    (shown fs) (console_ok fs).

Definition add_file (n : node) (text : string) (fs : fsys) : fsys :=
  Fsys (cwd fs) (dirs fs) (<[n := text]> (files fs)) (denied fs) (clock fs)
    (shown fs) (console_ok fs).

Definition add_shown (msg : printed) (fs : fsys) : fsys :=
  Fsys (cwd fs) (dirs fs) (files fs) (denied fs) (clock fs)
    (shown fs ++ [msg]) (console_ok fs).

(** [mkdir -p] along the components: an existing directory is entered, a
    missing one is made, a name that is too long, a file or a denied name
    stops the call. *)
Fixpoint mkdirs (n : node) (comps : list string) (fs : fsys) : result unit * fsys :=
  match comps with
  | [] => (Ok tt, fs)
  | c :: rest =>
      let n' := step n c in
      if too_long c then (Raise OSError, fs)
      else if is_dir n' fs then mkdirs n' rest fs
      else if is_file n' fs || is_denied n' fs then (Raise OSError, fs)
      else mkdirs n' rest (add_dir n' fs)
  end.

(** Every component but the last names a directory; the last one names a
    directory or a file. *)
Fixpoint lookup_all (n : node) (comps : list string) (fs : fsys) : bool :=
  match comps with
  | [] => true
  | [c] => is_dir (step n c) fs || is_file (step n c) fs
  | c :: rest => is_dir (step n c) fs && lookup_all (step n c) rest fs
  end.

Fixpoint lookup_dirs (n : node) (comps : list string) (fs : fsys) : bool :=
  match comps with
  | [] => true
  | c :: rest => is_dir (step n c) fs && lookup_dirs (step n c) rest fs
  end.

Definition sim_mkdir (p : path) (fs : fsys) : result unit * fsys :=
  mkdirs (start p fs) (parts p) fs.

Definition sim_exists (p : path) (fs : fsys) : bool :=
  lookup_all (start p fs) (parts p) fs.

(** [Path.resolve()]: the absolute path of the node, under a single
    slash. *)
Definition sim_resolve (p : path) (fs : fsys) : result path :=
  Ok (Path "/" (target p fs)).

Definition sim_write (name text : string) (fs : fsys) : result unit * fsys :=
  let p := parse name in
  let n := target p fs in
  if forallb (fun c => negb (too_long c)) (parts p)
     && lookup_dirs (start p fs) (removelast (parts p)) fs
     && negb (is_dir n fs) && negb (is_denied n fs)
  then (Ok tt, add_file n text fs)
  else (Raise OSError, fs).

Definition sim_read (name : string) (fs : fsys) : result string :=
  match files fs !! target (parse name) fs with
  | Some text => Ok text
  | None => Raise OSError
  end.

(** [print]: the message is shown, or the encoding of the stream refuses
    it. *)
Definition sim_print (msg : printed) (fs : fsys) : result unit * fsys :=
  if console_ok fs then (Ok tt, add_shown msg fs)
  else (Raise UnicodeEncodeError, fs).

#[global] Instance sim_world : World fsys := {
  path_mkdir := sim_mkdir;
  path_exists := sim_exists;
  path_resolve := sim_resolve;
  write_text := sim_write;
  read_text := sim_read;
  now := clock;
  print_out := sim_print
}.

(** A YAML library that knows the documents of a table, and prints in
    flow style. *)
Definition show_scalar (v : scalar) : string :=
  match v with
  | SNull => "null"
  | SBool true => "true"
  | SBool false => "false"
  | SInt z => pretty z
  | SFloat r => r
  | SStr s => s
  | SBytes b => "!!binary " +:+ b
  | SOther r => r
  end.

Fixpoint show (y : yaml) : string :=
  match y with
  | YScalar v => show_scalar v
  | YList items => "[" +:+ join ", " (map show items) +:+ "]"
  | YDict items =>
      "{" +:+ join ", " (map (fun kv => show_scalar (fst kv) +:+ ": " +:+ show (snd kv)) items) +:+ "}"
  end.

Fixpoint find_doc (docs : list (string * yaml)) (text : string) : result yaml :=
  match docs with
  | [] => Raise YAMLError
  | (t, y) :: rest => if String.eqb t text then Ok y else find_doc rest text
  end.

Definition table_yaml (docs : list (string * yaml)) : YamlLib := {|
  safe_load := find_doc docs;
  dump := show
|}.

(** An empty disk whose working directory is [/work]. *)
Definition disk0 : fsys :=
  Fsys ["work"] {[ ["work"] ]} ∅ ∅ "2025-04-15 14:16:00" [] true.

End Sim.

(** ** Observations on a run *)

Module Obs.
Import Text Pathlib Py Gen.

(** The call of [_create_dir] a log record stands for, with its outcome:
    every call writes exactly one of these three records. *)
Definition attempt_of (ev : event) : option (path * bool) :=
  match ev with
  | DirCreated p => Some (p, true)
  | DirMissing p => Some (p, false)
  | DirError p _ => Some (p, false)
  | _ => None
  end.

Definition attempts (l : list event) : list (path * bool) := omap attempt_of l.

Definition attempted (l : list event) : list path := (attempts l).*1.

Definition str_item (name : string) : yaml := YScalar (SStr name).

Definition is_str (v : yaml) : bool :=
  match v with YScalar (SStr _) => true | _ => false end.

(** The exception a name that is not a string raises: a [bytes] has
    [strip] but cannot be joined to a path, nothing else has [strip]. *)
Definition name_error (v : yaml) : exn :=
  match v with
  | YScalar (SBytes _) => TypeError
  | _ => AttributeError
  end.

(** Every name of the tree is a string. *)
Fixpoint all_names_str (node : yaml) : bool :=
  match node with
  | YDict items =>
      forallb (fun kv => is_str (YScalar kv.1) && all_names_str kv.2) items
  | YList items => forallb is_str items
  | YScalar _ => true
  end.

(** The document has no top-level field [directory_structure]: it is not
    a mapping, or it is a mapping without that key. *)
Definition field_absent (config : yaml) : Prop :=
  match config with
  | YDict items => dict_get (SStr "directory_structure") items = None
  | _ => True
  end.

Definition field_value (config : yaml) (v : yaml) : Prop :=
  match config with
  | YDict items => dict_get (SStr "directory_structure") items = Some v
  | _ => False
  end.

(** A path the walk can reach from the root: one or more joins with a
    stripped name. *)
Inductive below (root : path) : path → Prop :=
  | below_child (name : string) : below root (joinpath root (strip name))
  | below_deeper (p : path) (name : string) :
      below root p → below root (joinpath p (strip name)).

(** An ordinary single segment: not empty, not [.] or [..], no slash. *)
Definition plain (seg : string) : bool :=
  negb (String.eqb seg EmptyString) && negb (String.eqb seg ".")
  && negb (String.eqb seg "..")
  && forallb (λ c, negb (Ascii.eqb c "/")) (String.list_ascii_of_string seg).

(** Every name of the tree that is a string satisfies [ok]. *)
Definition name_sat (ok : string → bool) (v : yaml) : bool :=
  match v with
  | YScalar (SStr name) => ok name
  | _ => true
  end.

Fixpoint names_sat (ok : string → bool) (node : yaml) : bool :=
  match node with
  | YDict items =>
      forallb (fun kv => name_sat ok (YScalar kv.1) && names_sat ok kv.2) items
  | YList items => forallb (name_sat ok) items
  | YScalar _ => true
  end.

(** Every string name of the tree strips to an ordinary segment. *)
Definition plain_names (node : yaml) : bool :=
  names_sat (λ name, plain (strip name)) node.

(** The characters of the parts, counting one separator for each. *)
Fixpoint weight (xs : list string) : nat :=
  match xs with
  | [] => 0
  | x :: rest => String.length x + 1 + weight rest
  end.

(** No call of [_create_dir] recorded in the log failed. *)
Definition no_failure (l : list event) : Prop :=
  Forall (λ a : path * bool, a.2 = true) (attempts l).

(** What may happen to the world between two observations: calls of
    [mkdir], writes of text files and prints through the interface. *)
Inductive world_step {W : Type} `{World W} : W → W → Prop :=
  | step_mkdir (p : path) (w : W) : world_step w (path_mkdir p w).2
  | step_write (name text : string) (w : W) : world_step w (write_text name text w).2
  | step_print (msg : printed) (w : W) : world_step w (print_out msg w).2.

Definition later {W : Type} `{World W} : W → W → Prop := rtc world_step.

(** A world in which a directory call made once is settled: repeated at
    any later time it changes nothing, it succeeds if and only if it
    succeeded the first time, and after a success [exists] and [resolve]
    answer as they did then. *)
Class Replayable (W : Type) `{World W} : Prop :=
  replay_mkdir : ∀ (p : path) (w w2 : W),
    later (path_mkdir p w).2 w2 →
    (path_mkdir p w2).2 = w2 ∧
    is_ok (path_mkdir p w2).1 = is_ok (path_mkdir p w).1 ∧
    (is_ok (path_mkdir p w).1 = true →
       path_exists p w2 = path_exists p (path_mkdir p w).2 ∧
       path_resolve p w2 = path_resolve p (path_mkdir p w).2).

(** A computation that, run again at a later time, repeats its first
    run: same result, the world untouched, the same additions to the
    record and the same directory calls with the same outcomes. *)
Definition replays {W A : Type} `{World W} (m : M W A) (s : state W)
    (r : result A) (s1 : state W) : Prop :=
  later (world s) (world s1) ∧
  ∃ (added : gset string) (evs : list event),
    created_dirs s1 = created_dirs s ∪ added ∧
    log s1 = log s ++ evs ∧
    ∀ s2 : state W,
      later (world s1) (world s2) →
      ∃ (s3 : state W) (evs' : list event),
        m s2 = (r, s3) ∧
        world s3 = world s2 ∧
        created_dirs s3 = created_dirs s2 ∪ added ∧
        log s3 = log s2 ++ evs' ∧
        attempts evs' = attempts evs.

(** Walked at [cur], the tree has a name that is not a string, and the
    directories above that name, outermost first, are [above]: the name is
    an entry of the sequence or a key of the mapping walked at [cur], or
    it lies in the child of a string key. *)
Inductive bad_name_under : yaml → path → list path → Prop :=
  | bad_entry (items : list yaml) (cur : path) (item : yaml) :
      item ∈ items → is_str item = false →
      bad_name_under (YList items) cur []
  | bad_key (items : list (scalar * yaml)) (cur : path) (k : scalar) (child : yaml) :
      (k, child) ∈ items → is_str (YScalar k) = false →
      bad_name_under (YDict items) cur []
  | bad_deeper (items : list (scalar * yaml)) (cur : path) (name : string)
      (child : yaml) (above : list path) :
      (SStr name, child) ∈ items →
      bad_name_under child (joinpath cur (strip name)) above →
      bad_name_under (YDict items) cur (joinpath cur (strip name) :: above).

(** The exception is one that the [print] of [generate_readme]'s handler
    raises in some state of the world. *)
Definition print_raises {W : Type} `{World W} (e : exn) : Prop :=
  ∃ (e0 : exn) (w : W), (print_out (ReadmeNotWritten e0) w).1 = Raise e.

(** The text [generate_readme] writes, for the tree section [tree]. *)
Definition report_text `{YamlLib} (config : yaml) (stamp : string) (count : nat)
    (tree : list string) : string :=
  join nl (readme_head stamp count ++ tree ++ readme_tail config).

(** [q] lies strictly below [p]. *)
Definition strictly_below (p q : path) : Prop :=
  anchor q = anchor p ∧ ∃ segs, segs ≠ [] ∧ parts q = parts p ++ segs.

(** Every later call of [_create_dir] on [p] ends with the outcome [b]. *)
Definition settled {W : Type} `{World W} (p : path) (b : bool) (w : W) : Prop :=
  ∀ s2 : state W, later w (world s2) → ∃ s3, _create_dir p s2 = (Ok b, s3).

(** The path is the root followed by ordinary segments, and it is the
    root or the log records its creation. *)
Definition reached (root : path) (l : list event) (cur : path) : Prop :=
  ∃ segs0 : list string,
    cur = Path (anchor root) (parts root ++ segs0) ∧
    (segs0 = [] ∨ (cur, true) ∈ attempts l).

(** The attempted path is one ordinary segment below a reached path. *)
Definition child_of_reached (root : path) (l : list event) (q : path) : Prop :=
  ∃ (segs0 : list string) (seg : string),
    q = Path (anchor root) (parts root ++ segs0 ++ [seg]) ∧
    (segs0 = [] ∨ (Path (anchor root) (parts root ++ segs0), true) ∈ attempts l).

Definition orderly {W : Type} `{World W} (root : path) (s : state W) : Prop :=
  ∀ p b, (p, b) ∈ attempts (log s) →
         settled p b (world s) ∧ child_of_reached root (log s) p.

End Obs.

(** ** Sample runs on the simulated world *)

Module Cases.
Import Text Pathlib Py Gen Sim Obs.

(** [{A: [B, C], D: null}] *)
Definition tree_abcd : yaml :=
  YDict [(SStr "A", YList [str_item "B"; str_item "C"]); (SStr "D", YScalar SNull)].

(** [{A: {B: [C]}}] *)
Definition tree_nested : yaml :=
  YDict [(SStr "A", YDict [(SStr "B", YList [str_item "C"])])].

(** [{A: {B: [C]}, D: null}] *)
Definition tree_nested_d : yaml :=
  YDict [(SStr "A", YDict [(SStr "B", YList [str_item "C"])]); (SStr "D", YScalar SNull)].

(** The documents the sample YAML library knows. *)
Definition sample_docs : list (string * yaml) :=
  [ ("directory_structure: {A: [B, C], D: null}",
     YDict [(SStr "directory_structure", tree_abcd)]);
    ("structure: {A: [B, C]}",
     YDict [(SStr "structure", YDict [(SStr "A", YList [str_item "B"; str_item "C"])])]);
    ("- A", YList [str_item "A"]);
    ("# nothing", YScalar SNull) ].

#[global] Instance yaml0 : YamlLib := table_yaml sample_docs.

Definition with_file (name text : string) (fs : fsys) : fsys :=
  add_file (target (parse name) fs) text fs.

(** The process may not create [/work/R/A]. *)
Definition disk_no_A : fsys :=
  Fsys ["work"] {[ ["work"] ]} ∅ {[ ["work"; "R"; "A"] ]} "2025-04-15 14:16:00" [] true.

(** [{a: [1]}]: the entry [1] is an integer. *)
Definition tree_int_entry : yaml :=
  YDict [(SStr "a", YList [YScalar (SInt 1)])].

(** [{' ': [x]}]: a key of one space. *)
Definition tree_blank_key : yaml :=
  YDict [(SStr " ", YList [str_item "x"])].

(** [['.']] *)
Definition tree_dot : yaml := YList [str_item "."].

(** [['']] *)
Definition tree_empty_name : yaml := YList [str_item EmptyString].

(** [{A: {B: null}, 'A/B': null}]: the second key names a path of two
    segments. *)
Definition tree_slash : yaml :=
  YDict [(SStr "A", YDict [(SStr "B", YScalar SNull)]); (SStr "A/B", YScalar SNull)].

(** [{b: null, a: [1]}] *)
Definition tree_b_then_int : yaml :=
  YDict [(SStr "b", YScalar SNull); (SStr "a", YList [YScalar (SInt 1)])].

(** [[!!binary eA==]]: the entry is the byte string [b'x']. *)
Definition tree_bytes_top : yaml := YList [YScalar (SBytes "x")].

(** The ideographic space U+3000 followed by a space. *)
Definition wide_blank : string := chr 12288 +:+ " ".

(** [{'\u3000 ': [x]}] *)
Definition tree_wide_blank_key : yaml :=
  YDict [(SStr wide_blank, YList [str_item "x"])].

(** The process may not create [/work/R/b]. *)
Definition disk_no_b : fsys :=
  Fsys ["work"] {[ ["work"] ]} ∅ {[ ["work"; "R"; "b"] ]} "2025-04-15 14:16:00" [] true.

(** A standard output that cannot encode the messages. *)
Definition disk_mute : fsys :=
  Fsys ["work"] {[ ["work"] ]} ∅ ∅ "2025-04-15 14:16:00" [] false.

(** The process may not create [/work/R/a]. *)
Definition disk_no_a : fsys :=
  Fsys ["work"] {[ ["work"] ]} ∅ {[ ["work"; "R"; "a"] ]} "2025-04-15 14:16:00" [] true.

(** The process may not create [/work/R]. *)
Definition disk_no_root : fsys :=
  Fsys ["work"] {[ ["work"] ]} ∅ {[ ["work"; "R"] ]} "2025-04-15 14:16:00" [] true.

(** What the record holds on the simulated world when the names are
    ordinary segments. *)
Definition recorded_below (root : path) (fs : fsys) (x : string) : Prop :=
  ∃ (p : path) (segs : list string) (res rr : path),
    below root p ∧ segs ≠ [] ∧ Forall (λ seg, plain seg = true) segs ∧
    p = Path (anchor root) (parts root ++ segs) ∧
    sim_resolve p fs = Ok res ∧ x = to_str res ∧
    sim_resolve root fs = Ok rr ∧ parts res = parts rr ++ segs ∧
    x ≠ to_str rr.

Definition on_walk (root cur : path) : Prop :=
  ∃ segs0 : list string,
    Forall (λ seg, plain seg = true) segs0 ∧
    cur = Path (anchor root) (parts root ++ segs0) ∧
    (segs0 = [] ∨ below root cur).

Definition blocked (n : node) (fs : fsys) : bool :=
  is_file n fs || is_denied n fs.

(** The second tree has grown out of the first: same working directory,
    directories stay, and a name that stopped [mkdir] still stops it. *)
Record grown (w w' : fsys) : Prop := Grown {
  grown_cwd : cwd w' = cwd w;
  grown_dirs : ∀ n, is_dir n w = true → is_dir n w' = true;
  grown_blocked : ∀ n, is_dir n w = false → blocked n w = true →
                       is_dir n w' = false ∧ blocked n w' = true
}.

Definition run (config : yaml) (root : string) (fs : fsys) :
    result (list string) * state fsys :=
  generate config (parse root) (init fs).

End Cases.

(** ** Further notions about a run *)

Module Notions.
Import Text Pathlib Py Gen Obs.

(** The result is a value, or one of the listed exceptions. *)
Definition escapes {A : Type} (r : result A) (allowed : list exn) : Prop :=
  match r with
  | Ok _ => True
  | Raise e => e ∈ allowed
  end.

(** The calls a walk makes when no directory fails: one per name of the
    tree that is a string, a mapping's children right after their parent. *)
Fixpoint plan (node : yaml) (cur : path) : list path :=
  match node with
  | YDict items =>
      flat_map (fun kv : scalar * yaml =>
                  match kv.1 with
                  | SStr name =>
                      joinpath cur (strip name)
                        :: plan kv.2 (joinpath cur (strip name))
                  | _ => []
                  end) items
  | YList items =>
      flat_map (fun v => match v with
                         | YScalar (SStr name) => [joinpath cur (strip name)]
                         | _ => []
                         end) items
  | YScalar _ => []
  end.

(** The calls of the log that succeeded. *)
Definition created_paths (l : list event) : list path :=
  (filter (λ a : path * bool, a.2 = true) (attempts l)).*1.

(** From now on the path exists and resolves to [r]. *)
Definition stays_created {W : Type} `{World W} (p r : path) (w : W) : Prop :=
  ∀ w2, later w w2 → path_exists p w2 = true ∧ path_resolve p w2 = Ok r.

(** The record and the successful calls of the log tell the same story. *)
Definition faithful_record {W : Type} `{World W} (s : state W) : Prop :=
  (∀ p, (p, true) ∈ attempts (log s) →
        ∃ r, stays_created p r (world s) ∧ to_str r ∈ created_dirs s) ∧
  (∀ x, x ∈ created_dirs s →
        ∃ p r, (p, true) ∈ attempts (log s) ∧ stays_created p r (world s) ∧
               x = to_str r).

End Notions.

(** ** The constructor and the script

    [setup_logger], [DirectoryGenerator.__init__] and the [__main__]
    block.  The three records they log have no call site inside the class
    methods; they are kept in a list of their own beside the generator's
    state. *)

Module App.
Import Text Pathlib Py Gen.

(** What [setup_logger] needs of the environment: [Path.mkdir(exist_ok=True)],
    the file a [logging.FileHandler] opens, and the clock in the format of
    the log file's name. *)
Class LogFiles (W : Type) := {
  mkdir_one : path -> W -> result unit * W;
  open_log : string -> W -> result unit * W;
  file_stamp : W -> string
}.

Inductive note :=
  | Initialised (root_dir : string)
  | LogFileAt (file : path)
  | RunFailed.

Record generator := Generator {
  config : yaml;
  root : path;
  log_file : path
}.

Definition app (W : Type) : Type := (state W * list note)%type.

Definition with_world {W} (w : W) (a : app W) : app W :=
  (State w (created_dirs a.1) (log a.1), a.2).

Definition with_note {W} (n : note) (a : app W) : app W := (a.1, a.2 ++ [n]).

Definition root_directory : string := "./十进制文件夹管理系统".

Section App.
Context {W : Type} `{World W} `{YamlLib} `{LogFiles W}.

Definition setup_logger (root_dir : string) (a : app W) : result path * app W :=
  let log_time := file_stamp (world a.1) in
  let log_dir := parse "logs" in
  match mkdir_one log_dir (world a.1) with
  | (Raise e, w1) => (Raise e, with_world w1 a)
  | (Ok _, w1) =>
      let log_file := joinpath log_dir ("生成日志_" +:+ log_time +:+ ".log") in
      match open_log (to_str log_file) w1 with
      | (Raise e, w2) => (Raise e, with_world w2 a)
      | (Ok _, w2) => (Ok log_file, with_world w2 a)
      end
  end.

(** [DirectoryGenerator(config_path, root_dir)] *)
Definition construct (config_path root_dir : string) (a : app W) :
    result generator * app W :=
  match setup_logger root_dir a with
  | (Raise e, a1) => (Raise e, a1)
  | (Ok file, a1) =>
      let a2 := with_note (Initialised root_dir) a1 in
      match _load_config config_path a2.1 with
      | (Raise e, s3) => (Raise e, (s3, a2.2))
      | (Ok cfg, s3) =>
          (Ok (Generator cfg (parse root_dir) file),
           (State (world s3) ∅ (log s3), a2.2))
      end
  end.

(** The [__main__] block: the constructor is called outside the [try]. *)
Definition main (a : app W) : result unit * app W :=
  match construct "config.yaml" root_directory a with
  | (Raise e, a1) => (Raise e, a1)
  | (Ok g, a1) =>
      match generate (config g) (root g) a1.1 with
      | (Ok created_dirs, s2) => (Ok tt, with_note (LogFileAt (log_file g)) (s2, a1.2))
      | (Raise e, s2) => (Ok tt, with_note RunFailed (s2, a1.2))
      end
  end.

End App.

End App.

(** ** The order of [sorted] *)

Module Order.
Import Text Gen.

Lemma ascii_compare_lt_trans (x y z : ascii) :
  Ascii.compare x y = Lt → Ascii.compare y z = Lt → Ascii.compare x z = Lt.
Proof.
  unfold Ascii.compare. rewrite !N.compare_lt_iff. lia.
Qed.

Lemma compare_le_trans (a b c : string) :
  String.compare a b ≠ Gt → String.compare b c ≠ Gt → String.compare a c ≠ Gt.
Proof.
  revert b c. induction a as [|x a IH]; intros [|y b] [|z c]; cbn; try done.
  destruct (Ascii.compare x y) eqn:Hxy; [| |done].
  - apply Ascii.compare_eq_iff in Hxy as ->.
    destruct (Ascii.compare y z); [apply IH|done|done].
  - intros _. destruct (Ascii.compare y z) eqn:Hyz; [| |done].
    + apply Ascii.compare_eq_iff in Hyz as <-. by rewrite Hxy.
    + by rewrite (ascii_compare_lt_trans _ _ _ Hxy Hyz).
Qed.

Lemma string_le_compare (a b : string) :
  string_le a b ↔ String.compare a b ≠ Gt.
Proof.
  unfold string_le, String.leb. by destruct (String.compare a b).
Qed.

#[global] Instance string_le_trans : Transitive string_le.
Proof.
  intros a b c. rewrite !string_le_compare. apply compare_le_trans.
Qed.

#[global] Instance string_le_total : Total string_le.
Proof. intros a b. apply String.leb_total. Qed.

#[global] Instance string_le_antisym : AntiSymm (=) string_le.
Proof. intros a b. apply String.leb_antisym. Qed.

Lemma sorted_strongly (cd : gset string) : StronglySorted string_le (sorted cd).
Proof. apply StronglySorted_merge_sort; apply _. Qed.

Lemma sorted_perm (cd : gset string) : sorted cd ≡ₚ elements cd.
Proof. apply merge_sort_Permutation. Qed.

Lemma sorted_elem (cd : gset string) (x : string) : x ∈ sorted cd ↔ x ∈ cd.
Proof. by rewrite sorted_perm, elem_of_elements. Qed.

Lemma sorted_nodup (cd : gset string) : NoDup (sorted cd).
Proof. rewrite sorted_perm. apply NoDup_elements. Qed.

End Order.

(** ** White space and [strip] *)

Module Strip.
Import Text.

Lemma all_space_spaces_len (n : nat) :
  ∀ s, String.length s < n → all_space s = true → spaces s.
Proof.
  induction n as [|n IH]; intros s Hn; [lia|].
  destruct s as [|a [|b [|c r3]]]; cbn [all_space String.length] in *.
  - constructor.
  - destruct (space1 a) eqn:H1; [|done]. intros _. by repeat constructor.
  - destruct (space1 a) eqn:H1.
    + intros Hs. constructor; [done|]. apply IH; [cbn; lia|done].
    + destruct (space2 a b) eqn:H2; [|done]. intros _. by repeat constructor.
  - destruct (space1 a) eqn:H1.
    + intros Hs. constructor; [done|]. apply IH; [cbn; lia|done].
    + destruct (space2 a b) eqn:H2.
      * intros Hs. constructor; [done..|]. apply IH; [cbn; lia|done].
      * intros [H3 Hs]%andb_true_iff. constructor; [done..|]. apply IH; [lia|done].
Qed.

Lemma all_space_spaces (s : string) : all_space s = true → spaces s.
Proof. apply (all_space_spaces_len (S (String.length s))). lia. Qed.

Lemma spaces_all_space (s : string) : spaces s → all_space s = true.
Proof.
  induction 1 as [|a r H1 _ IH|a b r H1 H2 _ IH|a b c r H1 H2 H3 _ IH]; cbn.
  - done.
  - by rewrite H1.
  - by rewrite H1, H2.
  - by rewrite H1, H2, H3.
Qed.

Lemma lstrip_spaces (s : string) : spaces s → lstrip s = EmptyString.
Proof.
  induction 1 as [|a r H1 _ IH|a b r H1 H2 _ IH|a b c r H1 H2 H3 _ IH]; cbn.
  - done.
  - by rewrite H1.
  - by rewrite H1, H2.
  - by rewrite H1, H2, H3.
Qed.

Lemma lstrip_all_space (name : string) :
  all_space name = true → lstrip name = EmptyString.
Proof. intros Hs. by apply lstrip_spaces, all_space_spaces. Qed.

Lemma strip_all_space (name : string) :
  all_space name = true → strip name = EmptyString.
Proof. intros Hs. unfold strip. by rewrite lstrip_all_space. Qed.

(** White space in front is dropped. *)
Lemma lstrip_app_space (pre t : string) :
  all_space pre = true → lstrip (pre +:+ t) = lstrip t.
Proof.
  intros Hs%all_space_spaces.
  induction Hs as [|a r H1 _ IH|a b r H1 H2 _ IH|a b c r H1 H2 H3 _ IH].
  - done.
  - change (String a r +:+ t) with (String a (r +:+ t)). cbn. by rewrite H1.
  - change (String a (String b r) +:+ t) with (String a (String b (r +:+ t))).
    cbn. by rewrite H1, H2.
  - change (String a (String b (String c r)) +:+ t)
      with (String a (String b (String c (r +:+ t)))).
    cbn. by rewrite H1, H2, H3.
Qed.

Lemma space2_cont (a b : ascii) : space2 a b = true → is_cont b = true.
Proof.
  unfold space2, cp2. destruct (is_cont b); [done|]. by rewrite andb_false_r.
Qed.

Lemma space3_cont (a b c : ascii) :
  space3 a b c = true → is_cont b = true ∧ is_cont c = true.
Proof.
  unfold space3, cp3. destruct (is_cont b), (is_cont c); try done;
    by rewrite ?andb_false_r.
Qed.

Lemma space1_lead (a : ascii) : space1 a = true → is_cont a = false.
Proof.
  unfold space1, is_cont. intros [Ha _]%andb_true_iff.
  apply N.ltb_lt in Ha. apply andb_false_iff. left. apply N.leb_gt. lia.
Qed.

Lemma space2_lead (a b : ascii) : space2 a b = true → is_cont a = false.
Proof.
  unfold space2, cp2, is_cont at 2.
  destruct (_ && _ && _) eqn:Hc; [|done]. intros _.
  apply andb_true_iff in Hc as [[Ha _]%andb_true_iff _].
  apply N.leb_le in Ha. apply andb_false_iff. right. apply N.leb_gt. lia.
Qed.

Lemma space3_lead (a b c : ascii) : space3 a b c = true → is_cont a = false.
Proof.
  unfold space3, cp3, is_cont at 3.
  destruct (_ && _ && _ && _) eqn:Hc; [|done]. intros _.
  apply andb_true_iff in Hc as [[[Ha _]%andb_true_iff _]%andb_true_iff _].
  apply N.leb_le in Ha. apply andb_false_iff. right. apply N.leb_gt. lia.
Qed.

(** White space begins with no continuation byte. *)
Lemma spaces_lead (a : ascii) (r : string) :
  spaces (String a r) → is_cont a = false.
Proof.
  inversion 1; subst; eauto using space1_lead, space2_lead, space3_lead.
Qed.

Lemma space2_not_lead (a b : ascii) : is_cont b = false → space2 a b = false.
Proof.
  intros Hb. destruct (space2 a b) eqn:H2; [|done].
  apply space2_cont in H2. congruence.
Qed.

Lemma space3_not_lead (a b c : ascii) :
  is_cont b = false ∨ is_cont c = false → space3 a b c = false.
Proof.
  intros Hbc. destruct (space3 a b c) eqn:H3; [|done].
  apply space3_cont in H3 as [??]. destruct Hbc; congruence.
Qed.

Lemma all_space_app_len (post : string) (n : nat) :
  spaces post →
  ∀ t, String.length t < n → all_space (t +:+ post) = all_space t.
Proof.
  intros Hpost. induction n as [|n IH]; intros t Hn; [lia|].
  destruct t as [|a [|b [|c r3]]].
  - cbn. by apply spaces_all_space.
  - change (String a EmptyString +:+ post) with (String a post).
    cbn [all_space]. destruct (space1 a) eqn:H1; [by apply spaces_all_space|].
    destruct post as [|b r2]; [done|].
    pose proof (spaces_lead _ _ Hpost) as Hb.
    rewrite (space2_not_lead a b Hb).
    destruct r2 as [|c r3]; [done|].
    rewrite (space3_not_lead a b c) by by left. done.
  - change (String a (String b EmptyString) +:+ post) with (String a (String b post)).
    cbn [all_space]. destruct (space1 a) eqn:H1.
    + apply (IH (String b EmptyString)). cbn in *. lia.
    + destruct (space2 a b) eqn:H2; [by apply spaces_all_space|].
      destruct post as [|c r3]; [done|].
      pose proof (spaces_lead _ _ Hpost) as Hc.
      rewrite (space3_not_lead a b c) by by right. done.
  - change (String a (String b (String c r3)) +:+ post)
      with (String a (String b (String c (r3 +:+ post)))).
    cbn [all_space]. destruct (space1 a) eqn:H1.
    + apply (IH (String b (String c r3))). cbn in *. lia.
    + destruct (space2 a b) eqn:H2.
      * apply (IH (String c r3)). cbn in *. lia.
      * rewrite IH by (cbn in *; lia). done.
Qed.

Lemma all_space_app (t post : string) :
  all_space post = true → all_space (t +:+ post) = all_space t.
Proof.
  intros Hs%all_space_spaces.
  apply (all_space_app_len post (S (String.length t))); [done|lia].
Qed.

Lemma rstrip_unfold (s : string) :
  rstrip s = if all_space s then EmptyString
             else match s with
                  | EmptyString => EmptyString
                  | String a r => String a (rstrip r)
                  end.
Proof. by destruct s. Qed.

(** White space at the end is dropped. *)
Lemma rstrip_app_space (t post : string) :
  all_space post = true → rstrip (t +:+ post) = rstrip t.
Proof.
  intros Hpost. induction t as [|a t IH].
  - change (EmptyString +:+ post) with post.
    rewrite rstrip_unfold, Hpost. done.
  - rewrite (rstrip_unfold (String a t)), <- (all_space_app _ post), <- IH by done.
    by rewrite (rstrip_unfold (String a t +:+ post)).
Qed.

Lemma lstrip_app_len (post : string) (n : nat) :
  spaces post →
  ∀ t, String.length t < n →
       lstrip (t +:+ post) = if all_space t then EmptyString else lstrip t +:+ post.
Proof.
  intros Hpost. induction n as [|n IH]; intros t Hn; [lia|].
  destruct t as [|a [|b [|c r3]]].
  - cbn. by apply lstrip_spaces.
  - change (String a EmptyString +:+ post) with (String a post).
    cbn [lstrip all_space]. destruct (space1 a) eqn:H1; [by apply lstrip_spaces|].
    destruct post as [|b r2]; [done|].
    pose proof (spaces_lead _ _ Hpost) as Hb.
    rewrite (space2_not_lead a b Hb).
    destruct r2 as [|c r3]; [done|].
    rewrite (space3_not_lead a b c) by by left. done.
  - change (String a (String b EmptyString) +:+ post) with (String a (String b post)).
    cbn [lstrip all_space]. destruct (space1 a) eqn:H1.
    + apply (IH (String b EmptyString)). cbn in *. lia.
    + destruct (space2 a b) eqn:H2; [by apply lstrip_spaces|].
      destruct post as [|c r3]; [done|].
      pose proof (spaces_lead _ _ Hpost) as Hc.
      rewrite (space3_not_lead a b c) by by right. done.
  - change (String a (String b (String c r3)) +:+ post)
      with (String a (String b (String c (r3 +:+ post)))).
    cbn [lstrip all_space]. destruct (space1 a) eqn:H1.
    + apply (IH (String b (String c r3))). cbn in *. lia.
    + destruct (space2 a b) eqn:H2.
      * apply (IH (String c r3)). cbn in *. lia.
      * destruct (space3 a b c) eqn:H3; [|done].
        apply IH. cbn in *. lia.
Qed.

(** White space around a text does not change what [strip] leaves. *)
Lemma strip_padding (pre name post : string) :
  all_space pre = true → all_space post = true →
  strip (pre +:+ name +:+ post) = strip name.
Proof.
  intros Hpre Hpost. unfold strip. rewrite lstrip_app_space by done.
  rewrite (lstrip_app_len post (S (String.length name)))
    by (by apply all_space_spaces || lia).
  destruct (all_space name) eqn:Hname.
  - by rewrite lstrip_all_space.
  - by apply rstrip_app_space.
Qed.

End Strip.

(** ** Paths made of ordinary segments *)

Module Segments.
Import Text Pathlib Py Gen Obs.

Lemma split_no_slash (seg : string) :
  forallb (λ c, negb (Ascii.eqb c "/")) (String.list_ascii_of_string seg) = true →
  split "/" seg = [seg].
Proof.
  induction seg as [|c seg IH]; cbn; [done|].
  intros [Hc Hrest]%andb_true_iff. apply negb_true_iff in Hc. rewrite Hc.
  by rewrite IH.
Qed.

Lemma splitroot_no_slash (seg : string) :
  forallb (λ c, negb (Ascii.eqb c "/")) (String.list_ascii_of_string seg) = true →
  splitroot seg = (EmptyString, seg).
Proof.
  destruct seg as [|c seg]; cbn; [done|].
  intros [Hc _]%andb_true_iff. apply negb_true_iff, Ascii.eqb_neq in Hc.
  destruct c as [[] [] [] [] [] [] [] []]; try done.
Qed.

Lemma parse_plain (seg : string) :
  plain seg = true → parse seg = Path EmptyString [seg].
Proof.
  unfold plain. intros [[[He Hd]%andb_true_iff _]%andb_true_iff Hs]%andb_true_iff.
  unfold parse. rewrite splitroot_no_slash, split_no_slash by done.
  rewrite filter_cons_True; [done|]. unfold proper_part. by rewrite He, Hd.
Qed.

(** Joining an ordinary segment appends it. *)
Lemma joinpath_plain (p : path) (seg : string) :
  plain seg = true → joinpath p seg = Path (anchor p) (parts p ++ [seg]).
Proof. intros Hp. unfold joinpath. by rewrite parse_plain. Qed.

Lemma plain_not_empty (seg : string) : plain seg = true → 1 ≤ String.length seg.
Proof. destruct seg; [done|]. cbn. lia. Qed.

Lemma plain_not_dotdot (seg : string) : plain seg = true → String.eqb seg ".." = false.
Proof.
  unfold plain. intros [[_ Hd]%andb_true_iff _]%andb_true_iff.
  by apply negb_true_iff.
Qed.

Lemma length_append (a b : string) :
  String.length (a +:+ b) = String.length a + String.length b.
Proof. induction a as [|c a IH]; simpl; [done|]. by f_equal. Qed.

Lemma weight_app (xs ys : list string) : weight (xs ++ ys) = weight xs + weight ys.
Proof. induction xs as [|x xs IH]; cbn; [done|]. rewrite IH. lia. Qed.

Lemma join_length (xs : list string) :
  String.length (join "/" xs) = weight xs - 1.
Proof.
  induction xs as [|x xs IH]; [done|].
  destruct xs as [|y xs]; [cbn; lia|].
  change (join "/" (x :: y :: xs)) with (x +:+ "/" +:+ join "/" (y :: xs)).
  rewrite !length_append, IH. cbn. lia.
Qed.

Lemma weight_plain (segs : list string) :
  segs ≠ [] → Forall (λ seg, plain seg = true) segs → 2 ≤ weight segs.
Proof.
  intros Hne Hall. destruct Hall as [|seg segs Hseg _]; [done|].
  apply plain_not_empty in Hseg. cbn. lia.
Qed.

(** Appending ordinary segments changes the joined text. *)
Lemma join_longer (ps segs : list string) :
  segs ≠ [] → Forall (λ seg, plain seg = true) segs →
  String.length (join "/" ps) < String.length (join "/" (ps ++ segs)).
Proof.
  intros Hne Hall. rewrite !join_length, weight_app.
  pose proof (weight_plain segs Hne Hall). lia.
Qed.

End Segments.

(** ** The tree section of the report *)

Module Report.
Import Text Pathlib Py Gen.

(** A path below the root: the line is indented by four spaces per level
    under the first and shows the last part only. *)
Lemma tree_line_inside (root : path) (dir_path : string) (rel : path)
    (above : list string) (label : string) :
  relative_to (parse dir_path) root = Ok rel →
  parts rel = above ++ [label] →
  tree_line root dir_path = Ok (times "    " (length above) +:+ "- " +:+ label).
Proof.
  intros Hrel Hparts. unfold tree_line. rewrite Hrel, Hparts.
  rewrite last_snoc, length_app. cbn. by replace (length above + 1 - 1) with (length above) by lia.
Qed.

(** A path that is not under the root is shown in full. *)
Lemma tree_line_outside (root : path) (dir_path : string) :
  relative_to (parse dir_path) root = Raise ValueError →
  tree_line root dir_path = Ok ("- " +:+ dir_path).
Proof. intros Hrel. unfold tree_line. by rewrite Hrel. Qed.

(** The root itself has no last part: the line cannot be built. *)
Lemma tree_line_root (root : path) (dir_path : string) :
  relative_to (parse dir_path) root = Ok (Path EmptyString []) →
  tree_line root dir_path = Raise IndexError.
Proof. intros Hrel. unfold tree_line. by rewrite Hrel. Qed.

Lemma dir_tree_length (root : path) (dirs lines : list string) :
  dir_tree root dirs = Ok lines → length lines = length dirs.
Proof.
  revert lines. induction dirs as [|d dirs IH]; intros lines; cbn.
  - by intros [= <-].
  - destruct (tree_line root d); [|done].
    destruct (dir_tree root dirs) as [ls|]; [|done].
    intros [= <-]. cbn. by rewrite (IH ls).
Qed.

End Report.

(** ** Properties of the walk *)

Module Walk.
Import Text Pathlib Py Gen Obs Order Strip Segments.

Section Walk.
Context {W : Type} `{World W} `{YamlLib}.

Ltac unfold_m :=
  unfold bind, ret, raise, try_except, lift, logger, get_created, add_created,
    do_mkdir, do_exists, do_resolve, do_write, do_read, get_now in *.

(** [_create_dir] by cases on what the filesystem answers. *)
Lemma create_dir_cases (p : path) (s : state W) :
  _create_dir p s =
    match path_mkdir p (world s) with
    | (Raise e, w) => (Ok false, State w (created_dirs s) (log s ++ [DirError p e]))
    | (Ok _, w) =>
        if path_exists p w then
          match path_resolve p w with
          | Ok r => (Ok true, State w ({[to_str r]} ∪ created_dirs s) (log s ++ [DirCreated p]))
          | Raise e => (Ok false, State w (created_dirs s) (log s ++ [DirError p e]))
          end
        else (Ok false, State w (created_dirs s) (log s ++ [DirMissing p]))
    end.
Proof.
  unfold _create_dir. unfold_m.
  destruct (path_mkdir p (world s)) as [[[]|e] w]; cbn; [|done].
  destruct (path_exists p w); cbn; [|done].
  destruct (path_resolve p w) as [r|e]; done.
Qed.

Lemma create_dir_total (p : path) (s : state W) :
  ∃ ok s', _create_dir p s = (Ok ok, s').
Proof.
  rewrite create_dir_cases.
  destruct (path_mkdir p (world s)) as [[[]|e] w]; [|eauto].
  destruct (path_exists p w); [|eauto].
  destruct (path_resolve p w); eauto.
Qed.

Lemma create_dir_log (p : path) (s : state W) ok s' :
  _create_dir p s = (Ok ok, s') →
  ∃ ev, log s' = log s ++ [ev] ∧ attempt_of ev = Some (p, ok).
Proof.
  rewrite create_dir_cases.
  destruct (path_mkdir p (world s)) as [[[]|e] w].
  - destruct (path_exists p w).
    + destruct (path_resolve p w); intros [= <- <-]; cbn; eauto.
    + intros [= <- <-]; cbn; eauto.
  - intros [= <- <-]; cbn; eauto.
Qed.

Lemma attempts_app (l1 l2 : list event) :
  attempts (l1 ++ l2) = attempts l1 ++ attempts l2.
Proof. apply omap_app. Qed.

Lemma attempts_snoc_none (l : list event) (ev : event) :
  attempt_of ev = None → attempts (l ++ [ev]) = attempts l.
Proof. intros Hev. rewrite attempts_app. cbn. rewrite Hev. apply app_nil_r. Qed.

Lemma attempted_app (l1 l2 : list event) :
  attempted (l1 ++ l2) = attempted l1 ++ attempted l2.
Proof. unfold attempted. by rewrite attempts_app, fmap_app. Qed.

Lemma create_dir_attempted (p : path) (s : state W) ok s' :
  _create_dir p s = (Ok ok, s') →
  attempts (log s') = attempts (log s) ++ [(p, ok)].
Proof.
  intros (ev & -> & Hev)%create_dir_log.
  rewrite attempts_app. cbn. by rewrite Hev.
Qed.

Lemma create_dir_failed_keeps (p : path) (s s' : state W) :
  _create_dir p s = (Ok false, s') → created_dirs s' = created_dirs s.
Proof.
  rewrite create_dir_cases.
  destruct (path_mkdir p (world s)) as [[[]|e] w].
  - destruct (path_exists p w).
    + destruct (path_resolve p w); by intros [= <-].
    + by intros [= <-].
  - by intros [= <-].
Qed.

(** C4. [_create_dir] always returns a boolean and never raises; it
    returns [True] exactly when [mkdir] did not raise, the path exists
    afterwards and [resolve] did not raise; in that case the string of the
    resolved path is added to [created_dirs], and in every other case
    [created_dirs] is left as it was. *)
Theorem create_dir_contained (p : path) (s : state W) :
  ∃ (ok : bool) (s' : state W),
    _create_dir p s = (Ok ok, s') ∧
    world s' = (path_mkdir p (world s)).2 ∧
    (ok = true ↔
       is_ok (path_mkdir p (world s)).1 = true ∧
       path_exists p (world s') = true ∧
       is_ok (path_resolve p (world s')) = true) ∧
    (ok = true →
       ∃ r, path_resolve p (world s') = Ok r ∧
            created_dirs s' = {[to_str r]} ∪ created_dirs s) ∧
    (ok = false → created_dirs s' = created_dirs s).
Proof.
  rewrite create_dir_cases.
  destruct (path_mkdir p (world s)) as [[[]|e] w] eqn:Hmk; cbn.
  - destruct (path_exists p w) eqn:Hex.
    + destruct (path_resolve p w) as [r|e] eqn:Hres.
      * eexists true, _. split; [done|]. cbn. rewrite Hex, Hres. cbn.
        intuition (eauto; congruence).
      * eexists false, _. split; [done|]. cbn. rewrite Hex, Hres. cbn.
        intuition (eauto; congruence).
    + eexists false, _. split; [done|]. cbn. rewrite Hex.
      intuition (eauto; congruence).
  - eexists false, _. split; [done|]. cbn.
    intuition (eauto; congruence).
Qed.

Lemma process_dict_cons (item : scalar * yaml) rest (cur : path) (s : state W) :
  _process_node (YDict (item :: rest)) cur s =
    (branch_item _process_node cur item ;;; _process_node (YDict rest) cur) s.
Proof. done. Qed.

Lemma process_list_cons (item : yaml) rest (cur : path) (s : state W) :
  _process_node (YList (item :: rest)) cur s =
    (leaf_item cur item ;;; _process_node (YList rest) cur) s.
Proof. done. Qed.

Lemma branch_item_str (name : string) (child : yaml) (cur : path) (s : state W) ok s1 :
  _create_dir (joinpath cur (strip name)) s = (Ok ok, s1) →
  branch_item _process_node cur (SStr name, child) s =
    if ok then
      (logger (ChildNode (joinpath cur (strip name))) ;;;
       _process_node child (joinpath cur (strip name))) s1
    else (Ok tt, s1).
Proof.
  intros Hc. unfold branch_item. cbn. unfold bind at 1, lift. cbn.
  unfold bind at 1. rewrite Hc. by destruct ok.
Qed.

Lemma leaf_item_str (name : string) (cur : path) (s : state W) ok s1 :
  _create_dir (joinpath cur (strip name)) s = (Ok ok, s1) →
  leaf_item cur (str_item name) s = (Ok tt, s1).
Proof.
  intros Hc. unfold leaf_item. cbn. unfold bind at 1, lift. cbn.
  unfold bind. by rewrite Hc.
Qed.

(** C3. On a sequence of names every entry is attempted, in the order of
    the sequence and whatever the outcome of the other entries: the walk
    returns normally, and the state it leaves is the one reached by calling
    [_create_dir] on [current_path / name.strip()] for the names from first
    to last, each call starting from the state the one before it left,
    whether that one returned [True] or [False]; the calls logged are
    exactly these. *)
Theorem leaf_list_independent (names : list string) (cur : path) (s : state W) :
  let calls := (λ name, joinpath cur (strip name)) <$> names in
  let s' := foldl (λ st p, (_create_dir p st).2) s calls in
  _process_node (YList (str_item <$> names)) cur s = (Ok tt, s') ∧
  attempted (log s') = attempted (log s) ++ calls ∧
  length (attempts (log s')) = length (attempts (log s)) + length names.
Proof.
  revert s. induction names as [|name names IH]; intros s.
  - cbn. by rewrite app_nil_r, Nat.add_0_r.
  - destruct (create_dir_total (joinpath cur (strip name)) s) as (ok & s1 & Hc).
    destruct (IH s1) as (Hrun & Hatt & Hlen).
    rewrite !fmap_cons, process_list_cons. unfold bind at 1.
    rewrite (leaf_item_str _ _ _ _ _ Hc). cbn [foldl]. rewrite Hc. cbn [snd].
    split; [done|].
    pose proof (create_dir_attempted _ _ _ _ Hc) as Ha.
    unfold attempted in *. rewrite Hatt, Hlen, Ha.
    rewrite fmap_app, length_app. cbn. rewrite <- app_assoc. split; [done|lia].
Qed.

(** [generate_readme] by cases on the tree section, the write and the
    two prints. *)
Lemma generate_readme_cases (config : yaml) (root : path) (s : state W) :
  generate_readme config root s =
    match dir_tree root (sorted (created_dirs s)) with
    | Raise e => (Raise e, s)
    | Ok tree =>
        let text := report_text config (now (world s)) (size (created_dirs s)) tree in
        let failed e w :=
          (match (print_out (ReadmeNotWritten e) w).1 with
           | Ok _ => Ok false
           | Raise e' => Raise e'
           end,
           State (print_out (ReadmeNotWritten e) w).2 (created_dirs s) (log s)) in
        match write_text "README.md" text (world s) with
        | (Raise e, w) => failed e w
        | (Ok _, w) =>
            match print_out (ReadmeWritten "README.md") w with
            | (Ok _, w') => (Ok true, State w' (created_dirs s) (log s))
            | (Raise e, w') => failed e w'
            end
        end
    end.
Proof.
  unfold generate_readme, report_text. unfold_m. unfold do_print.
  destruct (dir_tree root (sorted (created_dirs s))) as [tree|e]; cbn; [|by destruct s].
  destruct (write_text _ _ (world s)) as [[[]|e] w]; cbn.
  - destruct (print_out (ReadmeWritten _) w) as [[[]|e] w']; cbn; [done|].
    by destruct (print_out (ReadmeNotWritten e) w') as [[[]|e'] w''].
  - by destruct (print_out (ReadmeNotWritten e) w) as [[[]|e'] w''].
Qed.

Lemma generate_readme_keeps (config : yaml) (root : path) (s : state W) r s' :
  generate_readme config root s = (r, s') →
  created_dirs s' = created_dirs s ∧ log s' = log s.
Proof.
  rewrite generate_readme_cases.
  destruct (dir_tree root (sorted (created_dirs s))) as [tree|e];
    [|by intros [= <- <-]].
  cbv zeta.
  destruct (write_text _ _ (world s)) as [[[]|e] w].
  - destruct (print_out (ReadmeWritten _) w) as [[[]|e] w']; by intros [= <- <-].
  - by intros [= <- <-].
Qed.

(** [generate_readme] raises only the exception of its tree section,
    before anything is written, or the one of the [print] in its handler. *)
Lemma generate_readme_raises (config : yaml) (root : path) (s : state W) e s' :
  generate_readme config root s = (Raise e, s') →
  (dir_tree root (sorted (created_dirs s)) = Raise e ∧ s' = s) ∨
  (is_ok (dir_tree root (sorted (created_dirs s))) = true ∧ print_raises e).
Proof.
  rewrite generate_readme_cases.
  destruct (dir_tree root (sorted (created_dirs s))) as [tree|e0];
    [|intros [= <- <-]; by left].
  cbv zeta. intros Hrun. right. split; [done|].
  destruct (write_text _ _ (world s)) as [[[]|e1] w].
  - destruct (print_out (ReadmeWritten _) w) as [[[]|e2] w']; [done|].
    exists e2, w'. destruct (print_out (ReadmeNotWritten e2) w') as [[[]|e'] w''];
      cbn in *; congruence.
  - exists e1, w. destruct (print_out (ReadmeNotWritten e1) w) as [[[]|e'] w''];
      cbn in *; congruence.
Qed.


Lemma generate_readme_no_tree (config : yaml) (root : path) (s : state W) e :
  dir_tree root (sorted (created_dirs s)) = Raise e →
  generate_readme config root s = (Raise e, s).
Proof.
  intros Hd. rewrite generate_readme_cases.
  by rewrite Hd.
Qed.

(** [generate] by cases on the walk and on the report. *)
Lemma generate_cases (config : yaml) (root : path) (s : state W) :
  generate config root s =
    match _process_node config root
            (State (world s) (created_dirs s) (log s ++ [Started])) with
    | (Ok _, s1) =>
        match generate_readme config root
                (State (world s1) (created_dirs s1)
                   (log s1 ++ [Finished (size (created_dirs s1))])) with
        | (Ok b, s2) =>
            (Ok (sorted (created_dirs s2)),
             State (world s2) (created_dirs s2)
               (log s2 ++ [if b then ReadmeDone else ReadmeFailed]))
        | (Raise e, s2) =>
            (Raise e, State (world s2) (created_dirs s2) (log s2 ++ [Interrupted]))
        end
    | (Raise e, s1) =>
        (Raise e, State (world s1) (created_dirs s1) (log s1 ++ [Interrupted]))
    end.
Proof.
  unfold generate, bind, try_except, logger, get_created, ret, raise.
  cbn [world created_dirs log].
  destruct (_process_node config root _) as [[[]|e] s1]; [|done].
  cbn [world created_dirs log].
  by destruct (generate_readme config root _) as [[b|e] s2].
Qed.

(** C5. When the walk over the tree from the root returns and the report
    is built, [generate] returns the list [sorted(created_dirs)]: it has
    exactly the members of the set the walk left, each once, in the
    lexicographic order of the strings. *)
Theorem generate_returns_sorted (config : yaml) (root : path)
    (s s1 s2 : state W) (readme_result : bool) :
  _process_node config root (State (world s) (created_dirs s) (log s ++ [Started]))
    = (Ok tt, s1) →
  generate_readme config root
    (State (world s1) (created_dirs s1) (log s1 ++ [Finished (size (created_dirs s1))]))
    = (Ok readme_result, s2) →
  ∃ (l : list string) (s' : state W),
    generate config root s = (Ok l, s') ∧
    world s' = world s2 ∧
    created_dirs s' = created_dirs s1 ∧
    l = sorted (created_dirs s1) ∧
    StronglySorted string_le l ∧
    NoDup l ∧
    ∀ x, x ∈ l ↔ x ∈ created_dirs s1.
Proof.
  intros Hwalk Hreadme.
  destruct (generate_readme_keeps _ _ _ _ _ Hreadme) as [Hcd Hlog]. cbn in Hcd.
  eexists (sorted (created_dirs s1)), _. split.
  - rewrite generate_cases, Hwalk, Hreadme. by rewrite Hcd.
  - cbn. split_and!; try done.
    + apply sorted_strongly.
    + apply sorted_nodup.
    + apply sorted_elem.
Qed.

(** C6. [_load_config] returns the value under [directory_structure] when
    the source can be read, its text parses and the parsed document has
    that top-level field; it raises, passing the error on to its caller,
    exactly when the read fails, the parse fails or the field is absent.
    Nothing but the log changes. *)
Theorem load_config_fails_exactly (src : string) (s : state W) :
  ∃ (r : result yaml) (s' : state W),
    _load_config src s = (r, s') ∧
    world s' = world s ∧ created_dirs s' = created_dirs s ∧
    (∀ v, r = Ok v ↔
       ∃ text config, read_text src (world s) = Ok text ∧
                      safe_load text = Ok config ∧ field_value config v) ∧
    (is_ok r = false ↔
       is_ok (read_text src (world s)) = false ∨
       (∃ text, read_text src (world s) = Ok text ∧ is_ok (safe_load text) = false) ∨
       (∃ text config, read_text src (world s) = Ok text ∧
                       safe_load text = Ok config ∧ field_absent config)).
Proof.
  unfold _load_config. unfold_m.
  destruct (read_text src (world s)) as [text|e] eqn:Hread; cbn.
  - destruct (safe_load text) as [config|e] eqn:Hload; cbn.
    + destruct config as [v|items|items]; cbn.
      1,2: eexists _, _; split; [done|]; cbn; split_and!; try done.
      1,3: intros v'; split; [done|]; intros (t & c & [= <-] & Hc & Hv);
           rewrite Hload in Hc; by injection Hc as <-.
      1,2: split; [intros _; right; right; eexists _, _; by split_and!|done].
      destruct (dict_get _ items) as [v|] eqn:Hget; cbn.
      * eexists _, _; split; [done|]; cbn; split_and!; try done.
        -- intros v'. split.
           ++ intros [= <-]. by eexists _, _.
           ++ intros (t & c & [= <-] & Hc & Hv). rewrite Hload in Hc.
              injection Hc as <-. cbn in Hv. congruence.
        -- split; [done|]. intros [?|[(t & [= <-] & Ht)|(t & c & [= <-] & Hc & Hv)]];
             try done.
           ++ by rewrite Hload in Ht.
           ++ rewrite Hload in Hc. injection Hc as <-. cbn in Hv. congruence.
      * eexists _, _; split; [done|]; cbn; split_and!; try done.
        -- intros v'. split; [done|].
           intros (t & c & [= <-] & Hc & Hv). rewrite Hload in Hc.
           injection Hc as <-. cbn in Hv. congruence.
        -- split; [|done]. intros _. right; right. by eexists _, _.
    + eexists _, _; split; [done|]; cbn; split_and!; try done.
      * intros v'. split; [done|].
        intros (t & c & [= <-] & Hc & Hv). by rewrite Hload in Hc.
      * split; [|done]. intros _. right; left. eexists. by rewrite Hload.
  - eexists _, _; split; [done|]; cbn; split_and!; try done.
    + intros v'. split; [done|]. by intros (t & c & ? & _).
    + split; [|done]. intros _. by left.
Qed.

(** Induction over a tree: the children of a mapping are smaller; the
    entries of a sequence are never walked into. *)
Lemma yaml_walk_ind (P : yaml → Prop) :
  (∀ v, P (YScalar v)) →
  (∀ items, P (YList items)) →
  (∀ items, Forall (λ kv : scalar * yaml, P kv.2) items → P (YDict items)) →
  ∀ node, P node.
Proof.
  intros Hs Hl Hd. fix IH 1. intros [v|items|items].
  - apply Hs.
  - apply Hl.
  - apply Hd. induction items as [|[k child] items IHitems]; constructor.
    + apply IH.
    + apply IHitems.
Qed.

Lemma branch_item_not_str (k : scalar) (child : yaml) (cur : path) (s : state W) :
  is_str (YScalar k) = false →
  branch_item _process_node cur (k, child) s = (Raise (name_error (YScalar k)), s).
Proof. by destruct k. Qed.

Lemma leaf_item_not_str (item : yaml) (cur : path) (s : state W) :
  is_str item = false → leaf_item cur item s = (Raise (name_error item), s).
Proof. by destruct item as [[]| |]. Qed.

Lemma name_error_cases (v : yaml) :
  name_error v = AttributeError ∨ name_error v = TypeError.
Proof. destruct v as [[]| |]; cbn; eauto. Qed.

Lemma is_str_inv (v : yaml) : is_str v = true → ∃ name, v = str_item name.
Proof. destruct v as [[]| |]; try done. eauto. Qed.

(** What one walk does to the log: it only appends. *)
Lemma process_log_grows (node : yaml) :
  ∀ (cur : path) (s : state W) r s',
    _process_node node cur s = (r, s') → ∃ l, log s' = log s ++ l.
Proof.
  induction node as [v|items|items IH] using yaml_walk_ind; intros cur s r s'.
  - destruct v; intros [= <- <-]; cbn; eauto.
  - revert s. induction items as [|item items IHitems]; intros s.
    + intros [= <- <-]. exists []. by rewrite app_nil_r.
    + rewrite process_list_cons. unfold bind at 1.
      destruct (is_str item) eqn:Hstr.
      * apply is_str_inv in Hstr as [name ->].
        destruct (create_dir_total (joinpath cur (strip name)) s) as (ok & s1 & Hc).
        rewrite (leaf_item_str _ _ _ _ _ Hc). intros [l Hl]%IHitems.
        destruct (create_dir_log _ _ _ _ Hc) as (ev & Hev & _).
        exists ([ev] ++ l). by rewrite Hl, Hev, <- app_assoc.
      * rewrite leaf_item_not_str by done. intros [= <- <-].
        exists []. by rewrite app_nil_r.
  - revert s. induction IH as [|[k child] items IHchild _ IHitems]; intros s.
    + intros [= <- <-]. exists []. by rewrite app_nil_r.
    + rewrite process_dict_cons. unfold bind at 1.
      destruct (is_str (YScalar k)) eqn:Hstr.
      * apply is_str_inv in Hstr as [name [= ->]].
        destruct (create_dir_total (joinpath cur (strip name)) s) as (ok & s1 & Hc).
        rewrite (branch_item_str _ _ _ _ _ _ Hc).
        destruct (create_dir_log _ _ _ _ Hc) as (ev & Hev & _).
        destruct ok.
        -- unfold bind at 1. unfold logger at 1. cbn [world created_dirs log].
           destruct (_process_node child _ _) as [[[]|e] s2] eqn:Hchild.
           ++ apply IHchild in Hchild as [l2 Hl2]. cbn in Hl2.
              intros [l Hl]%IHitems. eexists. rewrite Hl, Hl2, Hev.
              by rewrite <- !app_assoc.
           ++ apply IHchild in Hchild as [l2 Hl2]. cbn in Hl2.
              intros [= <- <-]. eexists. rewrite Hl2, Hev. by rewrite <- !app_assoc.
        -- intros [l Hl]%IHitems. eexists. rewrite Hl, Hev. by rewrite <- !app_assoc.
      * rewrite branch_item_not_str by done. intros [= <- <-].
        exists []. by rewrite app_nil_r.
Qed.

(** The only exceptions that leave the walk are those of a name that is
    not a string: [AttributeError] where there is no [strip], [TypeError]
    where a [bytes] is joined to the path. *)
Lemma process_raises_name (node : yaml) :
  ∀ (cur : path) (s : state W) e s',
    _process_node node cur s = (Raise e, s') → e = AttributeError ∨ e = TypeError.
Proof.
  induction node as [v|items|items IH] using yaml_walk_ind; intros cur s e s'.
  - by destruct v.
  - revert s. induction items as [|item items IHitems]; intros s; [done|].
    rewrite process_list_cons. unfold bind at 1.
    destruct (is_str item) eqn:Hstr.
    + apply is_str_inv in Hstr as [name ->].
      destruct (create_dir_total (joinpath cur (strip name)) s) as (ok & s1 & Hc).
      rewrite (leaf_item_str _ _ _ _ _ Hc). apply IHitems.
    + rewrite leaf_item_not_str by done. intros [= <- _]. apply (name_error_cases item).
  - revert s. induction IH as [|[k child] items IHchild _ IHitems]; intros s; [done|].
    rewrite process_dict_cons. unfold bind at 1.
    destruct (is_str (YScalar k)) eqn:Hstr.
    + apply is_str_inv in Hstr as [name [= ->]].
      destruct (create_dir_total (joinpath cur (strip name)) s) as (ok & s1 & Hc).
      rewrite (branch_item_str _ _ _ _ _ _ Hc). destruct ok; [|apply IHitems].
      unfold bind at 1. unfold logger at 1. cbn [world created_dirs log].
      destruct (_process_node child _ _) as [[[]|e'] s2] eqn:Hchild; [apply IHitems|].
      apply IHchild in Hchild. by intros [= <- <-].
    + rewrite branch_item_not_str by done. intros [= <- _].
      apply (name_error_cases (YScalar k)).
Qed.

Lemma no_failure_app (l1 l2 : list event) :
  no_failure (l1 ++ l2) ↔ no_failure l1 ∧ no_failure l2.
Proof. unfold no_failure. rewrite attempts_app. apply Forall_app. Qed.

Lemma attempts_grow (l l' : list event) (a : path * bool) :
  a ∈ attempts l → a ∈ attempts (l ++ l').
Proof. rewrite attempts_app, elem_of_app. by left. Qed.

(** A sequence with an entry that is not a string: the walk raises. *)
Lemma process_list_bad_entry (items : list yaml) (item : yaml) (cur : path) :
  item ∈ items → is_str item = false →
  ∀ (s : state W), is_ok (_process_node (YList items) cur s).1 = false.
Proof.
  intros Hin Hbad. induction items as [|item0 items IHitems]; intros s.
  { by apply elem_of_nil in Hin. }
  rewrite process_list_cons. unfold bind at 1.
  destruct (is_str item0) eqn:Hstr.
  - apply elem_of_cons in Hin as [->|Hin]; [congruence|].
    apply is_str_inv in Hstr as [name ->].
    destruct (create_dir_total (joinpath cur (strip name)) s) as (ok & s1 & Hc).
    rewrite (leaf_item_str _ _ _ _ _ Hc). by apply IHitems.
  - by rewrite leaf_item_not_str.
Qed.

(** A walk reaches a name whose directories above did not fail: if the
    name is not a string the walk raises, at that name or before. *)
Lemma process_reaches_bad_name (node : yaml) (cur : path) (above : list path) :
  bad_name_under node cur above →
  ∀ (s : state W) r s',
    _process_node node cur s = (r, s') →
    (∀ p, p ∈ above → (p, false) ∉ attempts (log s')) →
    is_ok r = false.
Proof.
  induction 1 as [items cur item Hin Hbad|items cur k child Hin Hbad
                 |items cur name child above Hin Hchild IH].
  - intros s r s' Hrun _.
    pose proof (process_list_bad_entry items item cur Hin Hbad s) as Hr.
    by rewrite Hrun in Hr.
  - induction items as [|[k0 child0] items IHitems]; intros s r s'.
    { by apply elem_of_nil in Hin. }
    rewrite process_dict_cons. unfold bind at 1.
    destruct (is_str (YScalar k0)) eqn:Hstr.
    + apply elem_of_cons in Hin as [[= -> ->]|Hin]; [congruence|].
      apply is_str_inv in Hstr as [name [= ->]].
      destruct (create_dir_total (joinpath cur (strip name)) s) as (ok & s1 & Hc).
      rewrite (branch_item_str _ _ _ _ _ _ Hc). destruct ok; [|by apply IHitems].
      unfold bind at 1. unfold logger at 1. cbn [world created_dirs log].
      destruct (_process_node child0 _ _) as [[[]|e'] s2]; [by apply IHitems|].
      by intros [= <- <-].
    + rewrite branch_item_not_str by done. by intros [= <- <-].
  - induction items as [|[k0 child0] items IHitems]; intros s r s'.
    { by apply elem_of_nil in Hin. }
    rewrite process_dict_cons. unfold bind at 1.
    destruct (is_str (YScalar k0)) eqn:Hstr;
      [|rewrite branch_item_not_str by done; by intros [= <- <-]].
    apply is_str_inv in Hstr as [name0 [= ->]].
    destruct (create_dir_total (joinpath cur (strip name0)) s) as (ok & s1 & Hc).
    rewrite (branch_item_str _ _ _ _ _ _ Hc).
    pose proof (create_dir_attempted _ _ _ _ Hc) as Hatt.
    apply elem_of_cons in Hin as [[= <- <-]|Hin].
    + destruct ok.
      * unfold bind at 1. unfold logger at 1. cbn [world created_dirs log].
        destruct (_process_node child _ _) as [[[]|e'] s2] eqn:Hwalk;
          [|by intros [= <- <-]].
        intros Hrest Hnone. exfalso.
        destruct (process_log_grows _ _ _ _ _ Hrest) as [l Hl].
        assert (is_ok (Ok tt : result unit) = false) as Hno; [|done].
        apply (IH _ _ _ Hwalk). intros p Hp Hfail.
        apply (Hnone p); [by right|]. rewrite Hl. by apply attempts_grow.
      * intros Hrest Hnone. exfalso.
        destruct (process_log_grows _ _ _ _ _ Hrest) as [l Hl].
        apply (Hnone (joinpath cur (strip name))); [by left|].
        rewrite Hl. apply attempts_grow. rewrite Hatt.
        apply elem_of_app. right. by apply list_elem_of_singleton.
    + destruct ok; [|by apply IHitems].
      unfold bind at 1. unfold logger at 1. cbn [world created_dirs log].
      destruct (_process_node child0 _ _) as [[[]|e'] s2]; [by apply IHitems|].
      by intros [= <- <-].
Qed.

(** A tree in which some name is not a string has such a name under some
    directories. *)
Lemma bad_name_located (node : yaml) :
  ∀ cur, all_names_str node = false → ∃ above, bad_name_under node cur above.
Proof.
  induction node as [v|items|items IH] using yaml_walk_ind; intros cur; [done| |].
  - cbn. intros Hall. exists [].
    assert (∃ item, item ∈ items ∧ is_str item = false) as (item & Hin & Hbad).
    { induction items as [|item items IHitems]; [done|]. cbn in Hall.
      destruct (is_str item) eqn:Hstr.
      - destruct (IHitems Hall) as (x & ? & ?). exists x. split; [by right|done].
      - exists item. split; [by left|done]. }
    by apply (bad_entry _ _ item).
  - induction IH as [|[k child] items IHchild _ IHitems]; [done|].
    change (all_names_str (YDict ((k, child) :: items)))
      with (is_str (YScalar k) && all_names_str child && all_names_str (YDict items)).
    cbn [snd] in IHchild. destruct (is_str (YScalar k)) eqn:Hstr.
    + destruct (all_names_str child) eqn:Hchild.
      * cbn [andb]. intros (above & Habove)%IHitems. exists above.
        inversion Habove as [|? ? k1 c1 Hin Hbad|? ? n1 c1 ab Hin Hbelow]; subst.
        -- apply (bad_key _ _ k1 c1); [by right|done].
        -- apply (bad_deeper _ _ n1 c1); [by right|done].
      * intros _. apply is_str_inv in Hstr as [name [= ->]].
        destruct (IHchild (joinpath cur (strip name)) eq_refl) as [above Habove].
        eexists. apply (bad_deeper _ _ name child); [by left|exact Habove].
    + intros _. exists []. apply (bad_key _ _ k child); [by left|done].
Qed.

(** C9, as amended. A tree has a mapping key or a sequence entry that is
    not a string, under the directories [above].  In a run in which none
    of these directories failed to be created, the walk reaches the name:
    [strip] raises [AttributeError], or for a [bytes] name the join with
    the path raises [TypeError]; the exception leaves the walk, [generate]
    logs the interruption and raises it again, and no report is
    attempted. *)
Theorem generate_aborts_on_reached_name (config : yaml) (root : path)
    (above : list path) (s : state W) (r : result (list string)) (s' : state W) :
  bad_name_under config root above →
  generate config root s = (r, s') →
  (∀ p, p ∈ above → (p, false) ∉ attempts (log s')) →
  ∃ e : exn,
    r = Raise e ∧
    (e = AttributeError ∨ e = TypeError) ∧
    last (log s') = Some Interrupted ∧
    _process_node config root (State (world s) (created_dirs s) (log s ++ [Started]))
      = (Raise e, State (world s') (created_dirs s') (removelast (log s'))).
Proof.
  intros Hbad. rewrite generate_cases.
  destruct (_process_node config root _) as [[[]|e] s1] eqn:Hwalk.
  - assert (∀ l, (∀ p, p ∈ above → (p, false) ∉ attempts (log s1 ++ l)) → False)
      as Hno.
    { intros l Hnone.
      assert (is_ok (Ok tt : result unit) = false) as Hr; [|done].
      apply (process_reaches_bad_name _ _ _ Hbad _ _ _ Hwalk).
      intros p Hp Hfail. apply (Hnone p Hp). by apply attempts_grow. }
    destruct (generate_readme config root _) as [[b|e] s2] eqn:Hreadme;
      apply generate_readme_keeps in Hreadme as [_ Hlog]; cbn in Hlog;
      intros [= <- <-] Hnone; exfalso; cbn [log] in Hnone;
      rewrite Hlog, <- app_assoc in Hnone; by apply Hno in Hnone.
  - intros [= <- <-] _. exists e. cbn [log world created_dirs].
    rewrite last_snoc, removelast_last.
    split_and!; [done|by apply process_raises_name in Hwalk|done|by destruct s1].
Qed.

Lemma joinpath_empty (cur : path) : joinpath cur EmptyString = cur.
Proof. destruct cur as [a ps]. unfold joinpath. cbn. by rewrite app_nil_r. Qed.

(** C8, as amended. A name made of white space only (or empty) strips to
    the empty string and [current_path / ''] is [current_path], so
    [_create_dir] is called on the current path itself.  When that call
    succeeds the resolved current directory is in [created_dirs] and, for
    a mapping item, the child is walked at the same path; when it fails
    nothing is recorded and the child is skipped. *)
Theorem blank_name_targets_current (name : string) (child : yaml)
    (cur : path) (s : state W) :
  all_space name = true →
  joinpath cur (strip name) = cur ∧
  ∃ (ok : bool) (s1 : state W),
    _create_dir cur s = (Ok ok, s1) ∧
    attempts (log s1) = attempts (log s) ++ [(cur, ok)] ∧
    leaf_item cur (str_item name) s = (Ok tt, s1) ∧
    (ok = true →
       (∃ r, path_resolve cur (world s1) = Ok r ∧ to_str r ∈ created_dirs s1) ∧
       branch_item _process_node cur (SStr name, child) s =
         (logger (ChildNode cur) ;;; _process_node child cur) s1) ∧
    (ok = false →
       created_dirs s1 = created_dirs s ∧
       branch_item _process_node cur (SStr name, child) s = (Ok tt, s1)).
Proof.
  intros Hblank.
  assert (joinpath cur (strip name) = cur) as Hcur.
  { rewrite strip_all_space by done. apply joinpath_empty. }
  split; [done|].
  destruct (create_dir_total cur s) as (ok & s1 & Hc).
  exists ok, s1. split; [done|].
  split; [by apply create_dir_attempted|].
  assert (_create_dir (joinpath cur (strip name)) s = (Ok ok, s1)) as Hc'
    by by rewrite Hcur.
  split; [by apply (leaf_item_str _ _ _ _ _ Hc')|].
  rewrite (branch_item_str _ child _ _ _ _ Hc'), Hcur. split.
  - intros ->. split; [|done].
    revert Hc. rewrite create_dir_cases.
    destruct (path_mkdir cur (world s)) as [[[]|e] w]; [|done].
    destruct (path_exists cur w); [|done].
    destruct (path_resolve cur w) as [r|e] eqn:Hres; [|done].
    intros [= <-]. cbn. exists r. split; [done|]. set_solver.
  - intros ->. split; [|done]. by apply (create_dir_failed_keeps _ _ _ Hc).
Qed.

Lemma later_trans (w1 w2 w3 : W) : later w1 w2 → later w2 w3 → later w1 w3.
Proof. apply rtc_trans. Qed.

Lemma later_mkdir (p : path) (w : W) : later w (path_mkdir p w).2.
Proof. apply rtc_once. constructor. Qed.

Lemma later_write (name text : string) (w : W) : later w (write_text name text w).2.
Proof. apply rtc_once. constructor. Qed.

Lemma later_print (msg : printed) (w : W) : later w (print_out msg w).2.
Proof. apply rtc_once. constructor. Qed.

Lemma create_dir_world (p : path) (s : state W) ok s1 :
  _create_dir p s = (Ok ok, s1) → world s1 = (path_mkdir p (world s)).2.
Proof.
  rewrite create_dir_cases.
  destruct (path_mkdir p (world s)) as [[[]|e] w].
  - destruct (path_exists p w).
    + destruct (path_resolve p w); by intros [= <- <-].
    + by intros [= <- <-].
  - by intros [= <- <-].
Qed.






Lemma create_dir_replays `{!Replayable W} (p : path) (s : state W) ok s1 :
  _create_dir p s = (Ok ok, s1) → replays (_create_dir p) s (Ok ok) s1.
Proof.
  intros Hc. pose proof (create_dir_world _ _ _ _ Hc) as Hw.
  split; [rewrite Hw; apply later_mkdir|].
  destruct (create_dir_log _ _ _ _ Hc) as (ev & Hlog & Hev).
  assert (∃ added : gset string,
    created_dirs s1 = created_dirs s ∪ added ∧
    ∀ s2, later (world s1) (world s2) →
      ∃ s3, _create_dir p s2 = (Ok ok, s3) ∧ world s3 = world s2 ∧
            created_dirs s3 = created_dirs s2 ∪ added) as (added & Hcd & Hre).
  { revert Hc Hw. rewrite create_dir_cases.
    destruct (path_mkdir p (world s)) as [[[]|e] w] eqn:Hmk; cbn.
    - destruct (path_exists p w) eqn:Hex;
        [destruct (path_resolve p w) as [res|e] eqn:Hres|];
        intros [= <- <-]; cbn; intros _;
        [exists {[to_str res]}|exists ∅|exists ∅]; (split; [set_solver|]);
        intros s2 Hl;
        (destruct (replay_mkdir p (world s) (world s2)) as (H2 & Hok & Hsame);
           [by rewrite Hmk|]);
        rewrite Hmk in Hok, Hsame; cbn in Hok, Hsame;
        destruct (Hsame eq_refl) as [Hex2 Hres2];
        rewrite create_dir_cases;
        (destruct (path_mkdir p (world s2)) as [[[]|e2] w2]; [|done]);
        cbn in H2; subst w2; rewrite Hex2, Hex, ?Hres2, ?Hres;
        eexists; (split_and!; [done|done|cbn; set_solver]).
    - intros [= <- <-]; cbn; intros _. exists ∅. split; [set_solver|].
      intros s2 Hl.
      destruct (replay_mkdir p (world s) (world s2)) as (H2 & Hok & _);
        [by rewrite Hmk|].
      rewrite Hmk in Hok; cbn in Hok. rewrite create_dir_cases.
      destruct (path_mkdir p (world s2)) as [[[]|e2] w2]; [done|].
      cbn in H2; subst w2. eexists; (split_and!; [done|done|cbn; set_solver]). }
  exists added, [ev]. split_and!; [done..|].
  intros s2 (s3 & Hc3 & Hw3 & Hcd3)%Hre.
  destruct (create_dir_log _ _ _ _ Hc3) as (ev' & Hlog' & Hev').
  exists s3, [ev']. split_and!; [done..|]. cbn. by rewrite Hev, Hev'.
Qed.





Lemma generate_readme_later (config : yaml) (root : path) (s : state W) r s' :
  generate_readme config root s = (r, s') → later (world s) (world s').
Proof.
  rewrite generate_readme_cases.
  destruct (dir_tree root (sorted (created_dirs s))) as [tree|e];
    [|by intros [= <- <-]].
  cbv zeta.
  pose proof (later_write "README.md"
    (report_text config (now (world s)) (size (created_dirs s)) tree) (world s)) as Hw.
  destruct (write_text _ _ (world s)) as [[[]|e] w]; cbn [snd] in Hw.
  - pose proof (later_print (ReadmeWritten "README.md") w) as Hp.
    destruct (print_out (ReadmeWritten _) w) as [[[]|e] w']; cbn [snd] in Hp.
    + intros [= <- <-]. by eapply later_trans.
    + intros [= <- <-]. cbn [world]. eapply later_trans; [exact Hw|].
      eapply later_trans; [exact Hp|apply later_print].
  - intros [= <- <-]. cbn [world]. eapply later_trans; [exact Hw|apply later_print].
Qed.


(** An invariant of the walk: a property of the state that logging keeps
    and that every [_create_dir] call on a path of the walk keeps, and a
    property of the current path, stable when the log grows, that holds of
    a path the walk has just created. *)
Lemma process_preserves (ok_name : string → bool) (C : path → state W → Prop)
    (P : state W → Prop) :
  (∀ cur s s' l, C cur s → log s' = log s ++ l → C cur s') →
  (∀ s ev, attempt_of ev = None → P s →
           P (State (world s) (created_dirs s) (log s ++ [ev]))) →
  (∀ cur name s ok s1,
     ok_name name = true → C cur s → P s →
     _create_dir (joinpath cur (strip name)) s = (Ok ok, s1) →
     P s1 ∧ (ok = true → C (joinpath cur (strip name)) s1)) →
  ∀ node cur s r s',
    names_sat ok_name node = true → C cur s → P s →
    _process_node node cur s = (r, s') → P s'.
Proof.
  intros Hmono Hlog Hmk.
  induction node as [v|items|items IH] using yaml_walk_ind; intros cur s r s'.
  - intros _ _ HP. destruct v; intros [= <- <-]; by apply Hlog.
  - revert s. induction items as [|item items IHitems]; intros s.
    + by intros _ _ HP [= <- <-].
    + cbn [names_sat forallb]. intros [Hn Hrest]%andb_true_iff HC HP.
      rewrite process_list_cons. unfold bind at 1.
      destruct (is_str item) eqn:Hstr.
      * apply is_str_inv in Hstr as [name ->].
        destruct (create_dir_total (joinpath cur (strip name)) s) as (ok & s1 & Hc).
        rewrite (leaf_item_str _ _ _ _ _ Hc).
        destruct (Hmk _ _ _ _ _ Hn HC HP Hc) as [HP1 _].
        destruct (create_dir_log _ _ _ _ Hc) as (ev & Hev & _).
        apply IHitems; [done| |done]. by apply (Hmono _ _ _ _ HC Hev).
      * rewrite leaf_item_not_str by done. by intros [= <- <-].
  - revert s. induction IH as [|[k child] items IHchild _ IHitems]; intros s.
    + by intros _ _ HP [= <- <-].
    + cbn [names_sat forallb]. intros [[Hn Hch]%andb_true_iff Hrest]%andb_true_iff HC HP.
      rewrite process_dict_cons. unfold bind at 1.
      destruct (is_str (YScalar k)) eqn:Hstr.
      * apply is_str_inv in Hstr as [name [= ->]].
        destruct (create_dir_total (joinpath cur (strip name)) s) as (ok & s1 & Hc).
        rewrite (branch_item_str _ _ _ _ _ _ Hc).
        destruct (Hmk _ _ _ _ _ Hn HC HP Hc) as [HP1 HC1].
        destruct (create_dir_log _ _ _ _ Hc) as (ev & Hev & _).
        pose proof (Hmono _ _ _ _ HC Hev) as HCs1.
        destruct ok.
        -- unfold bind at 1. unfold logger at 1. cbn [world created_dirs log].
           destruct (_process_node child _ _) as [[[]|e] s2] eqn:Hchild.
           ++ pose proof (process_log_grows _ _ _ _ _ Hchild) as [l Hl].
              cbn [log] in Hl. rewrite <- app_assoc in Hl.
              apply IHchild in Hchild; [|done| |by apply Hlog].
              ** apply IHitems; [done| |done]. by apply (Hmono _ _ _ _ HCs1 Hl).
              ** by apply (Hmono _ s1 _ [ChildNode (joinpath cur (strip name))]);
                   [apply HC1|].
           ++ apply IHchild in Hchild; [|done| |by apply Hlog].
              ** by intros [= <- <-].
              ** by apply (Hmono _ s1 _ [ChildNode (joinpath cur (strip name))]);
                   [apply HC1|].
        -- by apply IHitems.
      * rewrite branch_item_not_str by done. by intros [= <- <-].
Qed.

Lemma generate_attempts (config : yaml) (root : path) (s : state W) r s' :
  generate config root s = (r, s') →
  ∃ rw sw,
    _process_node config root (State (world s) (created_dirs s) (log s ++ [Started]))
      = (rw, sw) ∧
    attempts (log s') = attempts (log sw).
Proof.
  rewrite generate_cases.
  destruct (_process_node config root _) as [[[]|e] sw] eqn:Hwalk.
  - destruct (generate_readme config root _) as [[b|e] s2] eqn:Hreadme;
      apply generate_readme_keeps in Hreadme as [_ Hlog]; cbn in Hlog;
      intros [= <- <-]; eexists _, _; (split; [done|]); cbn [log];
      rewrite Hlog, !attempts_snoc_none; by try destruct b.
  - intros [= <- <-]. eexists _, _. split; [done|]. cbn [log].
    by rewrite attempts_snoc_none.
Qed.

Lemma reached_grows (root cur : path) (l l' : list event) :
  reached root l cur → reached root (l ++ l') cur.
Proof.
  intros (segs0 & Hcur & Hin). exists segs0. split; [done|].
  destruct Hin as [?|Hin]; [by left|right].
  rewrite attempts_app. apply elem_of_app. by left.
Qed.

Lemma child_of_reached_grows (root q : path) (l l' : list event) :
  child_of_reached root l q → child_of_reached root (l ++ l') q.
Proof.
  intros (segs0 & seg & Hq & Hin). exists segs0, seg. split; [done|].
  destruct Hin as [?|Hin]; [by left|right].
  rewrite attempts_app. apply elem_of_app. by left.
Qed.

(** With ordinary names in a settled world the log of a walk is orderly:
    each call is settled and its parent is the root or was created. *)
Lemma process_orderly `{!Replayable W} (root : path) (node : yaml) (s : state W) r s' :
  plain_names node = true →
  orderly root s →
  _process_node node root s = (r, s') →
  orderly root s'.
Proof.
  intros Hnames Hord Hwalk.
  refine (process_preserves (λ name, plain (strip name))
    (λ cur s0, reached root (log s0) cur) (orderly root)
    _ _ _ node root s r s' Hnames _ Hord Hwalk).
  - intros cur s0 s0' l Hr ->. by apply reached_grows.
  - intros s0 ev Hev Hs0 p b Hin. cbn [log world] in *.
    rewrite attempts_snoc_none in Hin by done.
    destruct (Hs0 p b Hin) as [Hset Hch]. split; [done|by apply child_of_reached_grows].
  - intros cur name s0 ok s1 Hp (segs0 & Hcur & Hreach) Hs0 Hc.
    destruct (create_dir_replays _ _ _ _ Hc) as (Hl & added & evs & _ & _ & Hre).
    pose proof (create_dir_attempted _ _ _ _ Hc) as Hatt.
    destruct (create_dir_log _ _ _ _ Hc) as (ev & Hlog & _).
    assert (joinpath cur (strip name)
            = Path (anchor root) (parts root ++ segs0 ++ [strip name])) as Hnew.
    { rewrite joinpath_plain by done. subst cur. cbn. by rewrite <- app_assoc. }
    assert (segs0 = [] ∨
            (Path (anchor root) (parts root ++ segs0), true) ∈ attempts (log s1)) as Hpar.
    { destruct Hreach as [?|Hin]; [by left|right].
      rewrite Hatt. apply elem_of_app. left. by rewrite <- Hcur. }
    split.
    + intros p b. rewrite Hatt. intros [Hin|Hin%list_elem_of_singleton]%elem_of_app.
      * destruct (Hs0 p b Hin) as [Hset Hch]. split.
        -- intros s2 Hl2. apply Hset. by eapply later_trans.
        -- rewrite Hlog. by apply child_of_reached_grows.
      * injection Hin as -> ->. split.
        -- intros s2 Hl2. destruct (Hre s2 Hl2) as (s3 & _ & Hc3 & _). eauto.
        -- by exists segs0, (strip name).
    + intros ->. exists (segs0 ++ [strip name]). split; [done|]. right.
      rewrite Hatt. apply elem_of_app. right. by apply list_elem_of_singleton.
  - exists []. split; [|by left]. rewrite app_nil_r. by destruct root.
Qed.

(** With ordinary names in a settled world, once the creation of a path
    has failed no path below it is attempted at any time of the run. *)
Lemma no_attempt_below_failed `{!Replayable W} (config : yaml) (root : path)
    (w : W) r s' (p q : path) (b : bool) :
  plain_names config = true →
  generate config root (init w) = (r, s') →
  (p, false) ∈ attempts (log s') →
  (q, b) ∈ attempts (log s') →
  ¬ strictly_below p q.
Proof.
  intros Hnames (rw & sw & Hwalk & Hatt)%generate_attempts. rewrite Hatt.
  assert (orderly root sw) as Hord.
  { refine (process_orderly root config _ rw sw Hnames _ Hwalk).
    intros p0 b0 Hin. cbn in Hin. by apply elem_of_nil in Hin. }
  intros Hp Hq (Hanchor & segs & Hne & Hparts).
  revert q b Hq Hanchor Hparts. induction segs as [|seg segs IH] using rev_ind; [done|].
  intros q b Hq Hanchor Hparts.
  destruct (Hord _ _ Hp) as [Hsetp (sp0 & segp & -> & _)].
  destruct (Hord _ _ Hq) as [_ (segs0 & seg' & -> & Hpar)].
  cbn [anchor parts] in *.
  rewrite <- !app_assoc in Hparts. apply app_inv_head in Hparts.
  rewrite !app_assoc in Hparts. apply app_inj_tail in Hparts as [Hs0 ->].
  subst segs0. destruct Hpar as [Hnil|Hin].
  { by destruct sp0. }
  destruct segs as [|x segs _] using rev_ind.
  - rewrite app_nil_r in Hin.
    destruct (Hord _ _ Hin) as [Hsett _].
    destruct (Hsetp sw) as [s3 H3]; [done|].
    destruct (Hsett sw) as [s4 H4]; [done|].
    congruence.
  - apply (IH ltac:(by destruct segs) _ _ Hin); [done|].
    cbn. by rewrite <- !app_assoc.
Qed.


End Walk.

End Walk.

(** ** The walk on the simulated world *)

Module SimWalk.
Import Text Pathlib Py Gen Sim Obs Cases Segments.

Lemma mkdirs_cwd (comps : list string) :
  ∀ n fs, cwd (mkdirs n comps fs).2 = cwd fs.
Proof.
  induction comps as [|c comps IH]; intros n fs; cbn [mkdirs]; [done|].
  destruct (too_long c); [done|].
  destruct (is_dir (step n c) fs); [apply IH|].
  destruct (is_file (step n c) fs || is_denied (step n c) fs); [done|].
  by rewrite IH.
Qed.

Lemma step_plain (n : node) (seg : string) :
  plain seg = true → step n seg = n ++ [seg].
Proof. intros Hp. unfold step. by rewrite plain_not_dotdot. Qed.

Lemma steps_plain (segs : list string) :
  ∀ n, Forall (λ seg, plain seg = true) segs → fold_left step segs n = n ++ segs.
Proof.
  induction segs as [|seg segs IH]; intros n Hall; cbn.
  - by rewrite app_nil_r.
  - inversion_clear Hall as [|?? Hseg Hrest].
    rewrite step_plain, IH by done. by rewrite <- app_assoc.
Qed.

(** Ordinary segments after the root stay after the resolved root. *)
Lemma target_plain (a : string) (ps segs : list string) (fs : fsys) :
  Forall (λ seg, plain seg = true) segs →
  target (Path a (ps ++ segs)) fs = target (Path a ps) fs ++ segs.
Proof.
  intros Hall. unfold target, start. cbn [anchor parts].
  by rewrite fold_left_app, steps_plain.
Qed.

Lemma start_cwd (p : path) (fs fs' : fsys) :
  cwd fs' = cwd fs → start p fs' = start p fs.
Proof. intros Hc. unfold start. by rewrite Hc. Qed.

Lemma target_cwd (p : path) (fs fs' : fsys) :
  cwd fs' = cwd fs → target p fs' = target p fs.
Proof. intros Hc. unfold target, start. by rewrite Hc. Qed.

(** What one call adds to the record on the simulated world. *)
Lemma sim_create_dir (p : path) (s : state fsys) ok s1 :
  _create_dir p s = (Ok ok, s1) →
  cwd (world s1) = cwd (world s) ∧
  ∀ x, x ∈ created_dirs s1 →
       x ∈ created_dirs s ∨ ∃ res, sim_resolve p (world s) = Ok res ∧ x = to_str res.
Proof.
  rewrite Walk.create_dir_cases.
  change (path_mkdir p (world s)) with (sim_mkdir p (world s)).
  pose proof (mkdirs_cwd (parts p) (start p (world s)) (world s)) as Hcwd.
  unfold sim_mkdir.
  destruct (mkdirs _ _ _) as [[[]|e] w]; cbn in Hcwd.
  - destruct (path_exists p w).
    + change (path_resolve p w) with (sim_resolve p w). unfold sim_resolve.
      intros [= <- <-]. cbn. split; [done|]. intros x [->%elem_of_singleton|Hx]%elem_of_union.
      * right. eexists. split; [done|]. by rewrite (target_cwd _ _ _ Hcwd).
      * by left.
    + intros [= <- <-]. cbn. split; [done|]. by left.
  - intros [= <- <-]. cbn. split; [done|]. by left.
Qed.

Lemma grown_refl (w : fsys) : grown w w.
Proof. by split. Qed.

Lemma grown_trans (w1 w2 w3 : fsys) : grown w1 w2 → grown w2 w3 → grown w1 w3.
Proof.
  intros [Hc1 Hd1 Hb1] [Hc2 Hd2 Hb2]. split.
  - congruence.
  - intros n Hn. by apply Hd2, Hd1.
  - intros n Hn Hb. destruct (Hb1 n Hn Hb) as [Hn' Hb']. by apply Hb2.
Qed.

Lemma grown_add_dir (n : node) (w : fsys) :
  is_dir n w = false → blocked n w = false → grown w (add_dir n w).
Proof.
  intros Hn Hb. split; [done| |].
  - intros m. unfold is_dir, add_dir. cbn.
    rewrite !orb_true_iff, !bool_decide_eq_true. set_solver.
  - intros m Hm Hbm. split; [|done].
    assert (m ≠ n) as Hne by (intros ->; congruence).
    revert Hm. unfold is_dir, add_dir. cbn.
    rewrite !orb_false_iff, !bool_decide_eq_false. set_solver.
Qed.

Lemma grown_add_file (n : node) (text : string) (w : fsys) :
  grown w (add_file n text w).
Proof.
  split; [done|done|]. intros m Hm Hbm. split; [done|].
  revert Hbm. unfold blocked, is_file, is_denied, add_file. cbn.
  rewrite !orb_true_iff, !bool_decide_eq_true.
  intros [Hf|Hd]; [left|by right].
  destruct (decide (n = m)) as [->|Hne].
  - rewrite lookup_insert_eq. eauto.
  - by rewrite lookup_insert_ne.
Qed.

Lemma mkdirs_grown (comps : list string) :
  ∀ n w, grown w (mkdirs n comps w).2.
Proof.
  induction comps as [|c comps IH]; intros n w; cbn [mkdirs]; [apply grown_refl|].
  destruct (too_long c); [apply grown_refl|].
  destruct (is_dir (step n c) w) eqn:Hd; [apply IH|].
  fold (blocked (step n c) w).
  destruct (blocked (step n c) w) eqn:Hb; [apply grown_refl|].
  eapply grown_trans; [by apply grown_add_dir|apply IH].
Qed.

Lemma sim_write_grown (name text : string) (w : fsys) :
  grown w (sim_write name text w).2.
Proof.
  unfold sim_write. destruct (_ && _); [apply grown_add_file|apply grown_refl].
Qed.

Lemma sim_print_grown (msg : printed) (w : fsys) :
  grown w (sim_print msg w).2.
Proof. unfold sim_print. by destruct (console_ok w). Qed.

Lemma later_grown (w w' : fsys) : later w w' → grown w w'.
Proof.
  induction 1 as [|w1 w2 w3 Hstep _ IH]; [apply grown_refl|].
  eapply grown_trans; [|exact IH].
  destruct Hstep; [apply mkdirs_grown|apply sim_write_grown|apply sim_print_grown].
Qed.

Lemma lookup_all_cons (n : node) (c : string) (rest : list string) (w : fsys) :
  is_dir (step n c) w = true → lookup_all (step n c) rest w = true →
  lookup_all n (c :: rest) w = true.
Proof. intros Hd Hrest. cbn. rewrite Hd. by destruct rest. Qed.

(** Repeating [mkdirs] on a grown tree changes nothing and ends the same
    way. *)
Lemma mkdirs_settled (comps : list string) :
  ∀ n w w2,
    grown (mkdirs n comps w).2 w2 →
    (mkdirs n comps w2).2 = w2 ∧
    is_ok (mkdirs n comps w2).1 = is_ok (mkdirs n comps w).1 ∧
    (is_ok (mkdirs n comps w).1 = true →
       lookup_all n comps w2 = true ∧
       lookup_all n comps (mkdirs n comps w).2 = true).
Proof.
  induction comps as [|c comps IH]; intros n w w2; [done|].
  cbn [mkdirs]. fold (blocked (step n c) w). fold (blocked (step n c) w2).
  destruct (too_long c); [done|].
  destruct (is_dir (step n c) w) eqn:Hd.
  - intros Hg. pose proof (mkdirs_grown comps (step n c) w) as Hg1.
    assert (is_dir (step n c) w2 = true) as Hd2
      by by apply (grown_dirs _ _ Hg), (grown_dirs _ _ Hg1).
    rewrite Hd2. destruct (IH _ _ _ Hg) as (? & ? & Hl). split_and!; [done..|].
    intros [??]%Hl. split; apply lookup_all_cons; try done.
    by apply (grown_dirs _ _ Hg1).
  - destruct (blocked (step n c) w) eqn:Hb.
    + cbn. intros Hg. destruct (grown_blocked _ _ Hg _ Hd Hb) as [-> ->]. done.
    + intros Hg.
      pose proof (mkdirs_grown comps (step n c) (add_dir (step n c) w)) as Hg1.
      assert (is_dir (step n c) (add_dir (step n c) w) = true) as Hd1.
      { unfold is_dir, add_dir. cbn. rewrite orb_true_iff, !bool_decide_eq_true.
        set_solver. }
      assert (is_dir (step n c) w2 = true) as Hd2
        by by apply (grown_dirs _ _ Hg), (grown_dirs _ _ Hg1).
      rewrite Hd2. destruct (IH _ _ _ Hg) as (? & ? & Hl). split_and!; [done..|].
      intros [??]%Hl. split; apply lookup_all_cons; try done.
      by apply (grown_dirs _ _ Hg1).
Qed.

(** The simulated world is one in which directory calls are settled. *)
#[global] Instance sim_replayable : Replayable fsys.
Proof.
  intros p w w2 Hl%later_grown.
  change (path_mkdir p) with (sim_mkdir p) in *.
  change (path_exists p) with (sim_exists p).
  change (path_resolve p) with (sim_resolve p).
  unfold sim_mkdir, sim_exists, sim_resolve in *.
  pose proof (mkdirs_grown (parts p) (start p w) w) as Hg1.
  assert (cwd w2 = cwd w) as Hcwd.
  { rewrite (grown_cwd _ _ Hl). apply (grown_cwd _ _ Hg1). }
  assert (start p w2 = start p w) as Hs by by apply start_cwd.
  rewrite Hs.
  destruct (mkdirs_settled _ _ _ _ Hl) as (H1 & H2 & H3). split_and!; [done..|].
  intros [Ha Hb]%H3.
  assert (start p (mkdirs (start p w) (parts p) w).2 = start p w) as Hs1.
  { apply start_cwd, (grown_cwd _ _ Hg1). }
  rewrite Hs1, Ha, Hb. split; [done|].
  by rewrite (target_cwd p w w2 Hcwd), (target_cwd p w _ (grown_cwd _ _ Hg1)).
Qed.

Lemma to_str_rooted (a : string) (ps : list string) :
  a ≠ EmptyString → to_str (Path a ps) = a +:+ join "/" ps.
Proof. by destruct a. Qed.

(** The text of a resolved path tells it from the resolved root. *)
Lemma resolved_differs (root : path) (segs : list string) (fs : fsys) res rr :
  segs ≠ [] → Forall (λ seg, plain seg = true) segs →
  sim_resolve (Path (anchor root) (parts root ++ segs)) fs = Ok res →
  sim_resolve root fs = Ok rr →
  parts res = parts rr ++ segs ∧ to_str res ≠ to_str rr.
Proof.
  intros Hne Hall [= <-] [= <-]. cbn [anchor parts].
  rewrite target_plain by done. destruct root as [a ps]. cbn [anchor parts].
  split; [done|].
  rewrite !to_str_rooted by done.
  intros Heq. apply (f_equal String.length) in Heq.
  rewrite !length_append in Heq.
  pose proof (join_longer (target (Path a ps) fs) segs Hne Hall). lia.
Qed.

Lemma on_walk_join (root cur : path) (name : string) :
  plain (strip name) = true → on_walk root cur →
  on_walk root (joinpath cur (strip name)) ∧
  ∃ segs, segs ≠ [] ∧ Forall (λ seg, plain seg = true) segs ∧
          joinpath cur (strip name) = Path (anchor root) (parts root ++ segs) ∧
          below root (joinpath cur (strip name)).
Proof.
  intros Hp (segs0 & Hall & Hcur & Hbelow).
  assert (below root (joinpath cur (strip name))) as Hb.
  { destruct Hbelow as [->|Hb]; [|by constructor].
    rewrite app_nil_r in Hcur. destruct root. cbn in Hcur. subst cur. constructor. }
  assert (joinpath cur (strip name)
          = Path (anchor root) (parts root ++ (segs0 ++ [strip name]))) as Hj.
  { rewrite joinpath_plain by done. subst cur. cbn. by rewrite <- app_assoc. }
  assert (Forall (λ seg, plain seg = true) (segs0 ++ [strip name])) as Hall'.
  { apply Forall_app. split; [done|]. by constructor. }
  split.
  - exists (segs0 ++ [strip name]). split_and!; [done..|by right].
  - exists (segs0 ++ [strip name]). split_and!; try done. by destruct segs0.
Qed.

Lemma sim_walk_recorded (root : path) (fs : fsys) (node : yaml) (s : state fsys) r s' :
  plain_names node = true →
  cwd (world s) = cwd fs →
  (∀ x, x ∈ created_dirs s → recorded_below root fs x) →
  _process_node node root s = (r, s') →
  ∀ x, x ∈ created_dirs s' → recorded_below root fs x.
Proof.
  intros Hnames Hcwd Hrec Hwalk.
  refine (proj2 (Walk.process_preserves (λ name, plain (strip name))
    (λ cur _, on_walk root cur)
    (λ s, cwd (world s) = cwd fs ∧ ∀ x, x ∈ created_dirs s → recorded_below root fs x)
    _ _ _ node root s r s' Hnames _ _ Hwalk)).
  - done.
  - by intros s0 ev _ [??].
  - intros cur name s0 ok s1 Hp Hon [Hc0 Hr0] Hc.
    destruct (on_walk_join _ _ _ Hp Hon) as (Hon' & segs & Hne & Hall & Hj & Hb).
    split; [|done].
    destruct (sim_create_dir _ _ _ _ Hc) as [Hc1 Hx]. split; [congruence|].
    intros x [Hin|(res & Hres & ->)]%Hx; [by apply Hr0|].
    assert (sim_resolve (joinpath cur (strip name)) fs = Ok res) as Hres'.
    { revert Hres. unfold sim_resolve. by rewrite (target_cwd _ _ _ Hc0). }
    rewrite Hj in Hres'.
    pose (rr := Path "/" (target root fs)).
    destruct (resolved_differs root segs fs res rr Hne Hall Hres' eq_refl) as [Hparts Hdiff].
    exists (joinpath cur (strip name)), segs, res, rr.
    split_and!; try done. by rewrite Hj.
  - exists []. split_and!; [constructor| |by left].
    rewrite app_nil_r. by destruct root.
  - done.
Qed.

(** C10, as amended. On the simulated world, which has no symbolic
    links, when every name strips to an ordinary single segment (not
    empty, no slash, not [.] or [..]), every member of [created_dirs] and
    of the list [generate] returns is the text of the resolved path of the
    root followed by one or more stripped names, and the resolved root
    itself is not a member. *)
Theorem created_below_root (config : yaml) (root : path) (fs : fsys)
    (r : result (list string)) (s' : state fsys) :
  plain_names config = true →
  generate config root (init fs) = (r, s') →
  (∀ x, x ∈ created_dirs s' → recorded_below root fs x) ∧
  (∀ l, r = Ok l → ∀ x, x ∈ l → recorded_below root fs x) ∧
  (∀ l rr, r = Ok l → sim_resolve root fs = Ok rr → to_str rr ∉ l).
Proof.
  intros Hnames Hgen.
  assert (∀ x, x ∈ created_dirs s' → recorded_below root fs x) as Hrec.
  { revert Hgen. rewrite Walk.generate_cases.
    destruct (_process_node config root _) as [[[]|e] s1] eqn:Hwalk.
    - destruct (generate_readme config root _) as [[b|e] s2] eqn:Hreadme;
        intros [= <- <-]; cbn;
        apply Walk.generate_readme_keeps in Hreadme as [-> _]; cbn;
        (eapply sim_walk_recorded; [exact Hnames| | |exact Hwalk]; cbn;
         [done|set_solver]).
    - intros [= <- <-]; cbn.
      eapply sim_walk_recorded; [exact Hnames| | |exact Hwalk]; cbn;
        [done|set_solver]. }
  assert (∀ l, r = Ok l → ∀ x, x ∈ l → x ∈ created_dirs s') as Hl.
  { intros l ->. revert Hgen. rewrite Walk.generate_cases.
    destruct (_process_node config root _) as [[[]|e] s1]; [|done].
    destruct (generate_readme config root _) as [[b|e] s2]; [|done].
    intros [= <- <-] x. cbn. by rewrite Order.sorted_elem. }
  split_and!; [done|naive_solver|].
  intros l rr Hr Hrr Hin.
  destruct (Hrec _ (Hl _ Hr _ Hin)) as (p & segs & res & rr' & _ & _ & _ & _ & _ & _ & Hrr' & _ & Hne).
  rewrite Hrr in Hrr'. injection Hrr' as <-. done.
Qed.

End SimWalk.

(** ** The properties on sample runs *)

Module Runs.
Import Text Pathlib Py Gen Sim Obs Cases.

Lemma generate_returns_sorted_witness :
  let s := init disk0 in
  let s1 := (_process_node tree_abcd (parse "R")
               (State (world s) (created_dirs s) (log s ++ [Started]))).2 in
  let s2 := (generate_readme tree_abcd (parse "R")
               (State (world s1) (created_dirs s1)
                  (log s1 ++ [Finished (size (created_dirs s1))]))).2 in
  ∃ (l : list string) (s' : state fsys),
    generate tree_abcd (parse "R") s = (Ok l, s') ∧
    world s' = world s2 ∧
    created_dirs s' = created_dirs s1 ∧
    l = sorted (created_dirs s1) ∧
    StronglySorted string_le l ∧
    NoDup l ∧
    ∀ x, x ∈ l ↔ x ∈ created_dirs s1.
Proof.
  intros s s1 s2.
  apply (Walk.generate_returns_sorted tree_abcd (parse "R") s s1 s2 true);
    vm_compute; reflexivity.
Defined.

(** The four directories of the sample tree, in order. *)
Lemma run_abcd :
  (run tree_abcd "R" disk0).1 =
    Ok ["/work/R/A"; "/work/R/A/B"; "/work/R/A/C"; "/work/R/D"].
Proof. vm_compute. reflexivity. Qed.

(** A refused parent: nothing below it is tried. *)
Lemma run_refused_parent :
  (run tree_nested "R" disk_no_A).1 = Ok [] ∧
  attempts (log (run tree_nested "R" disk_no_A).2) = [(parse "R/A", false)].
Proof. split; vm_compute; reflexivity. Qed.

(** Loading: a good document, a missing file, a text that does not
    parse, a mapping without the field, a sequence and an empty document. *)
Lemma load_samples :
  (_load_config "config.yaml"
     (init (with_file "config.yaml" "directory_structure: {A: [B, C], D: null}" disk0))).1
    = Ok tree_abcd ∧
  (_load_config "config.yaml" (init disk0)).1 = Raise OSError ∧
  (_load_config "config.yaml" (init (with_file "config.yaml" "{" disk0))).1
    = Raise YAMLError ∧
  (_load_config "config.yaml"
     (init (with_file "config.yaml" "structure: {A: [B, C]}" disk0))).1
    = Raise KeyError ∧
  (_load_config "config.yaml" (init (with_file "config.yaml" "- A" disk0))).1
    = Raise TypeError ∧
  (_load_config "config.yaml" (init (with_file "config.yaml" "# nothing" disk0))).1
    = Raise TypeError.
Proof. split_and!; vm_compute; reflexivity. Qed.

(** C9 as stated fails, in two ways.  The tree [{a: [1]}] holds the
    integer entry [1], but the directory above it cannot be created: the
    entry is never reached and [generate] returns normally.  And for the
    byte string entry of [[b'x']] the trim step does not raise: [strip]
    returns a byte string, and it is the join with the path that raises
    [TypeError]. *)
Lemma nonstring_entry_skipped :
  all_names_str tree_int_entry = false ∧
  (run tree_int_entry "R" disk_no_a).1 = Ok [] ∧
  attempts (log (run tree_int_entry "R" disk_no_a).2) = [(parse "R/a", false)] ∧
  all_names_str tree_bytes_top = false ∧
  strip_name (YScalar (SBytes "x")) = Ok (Bytes "x") ∧
  (run tree_bytes_top "R" disk0).1 = Raise TypeError.
Proof. split_and!; vm_compute; reflexivity. Qed.

(** The integer entry of [{b: null, a: [1]}] lies under [R/a]; [R/b]
    cannot be created, [R/a] can: the run is interrupted. *)
Lemma generate_aborts_on_reached_name_witness :
  bad_name_under tree_b_then_int (parse "R") [joinpath (parse "R") (strip "a")] ∧
  attempts (log (run tree_b_then_int "R" disk_no_b).2)
    = [(parse "R/b", false); (parse "R/a", true)] ∧
  ∃ e : exn,
    (run tree_b_then_int "R" disk_no_b).1 = Raise e ∧
    (e = AttributeError ∨ e = TypeError) ∧
    last (log (run tree_b_then_int "R" disk_no_b).2) = Some Interrupted ∧
    _process_node tree_b_then_int (parse "R")
      (State (world (init disk_no_b)) (created_dirs (init disk_no_b))
         (log (init disk_no_b) ++ [Started]))
      = (Raise e, State (world (run tree_b_then_int "R" disk_no_b).2)
                    (created_dirs (run tree_b_then_int "R" disk_no_b).2)
                    (removelast (log (run tree_b_then_int "R" disk_no_b).2))).
Proof.
  assert (bad_name_under tree_b_then_int (parse "R")
            [joinpath (parse "R") (strip "a")]) as Hbad.
  { apply (bad_deeper _ _ "a" (YList [YScalar (SInt 1)]) []).
    - right. left.
    - apply (bad_entry _ _ (YScalar (SInt 1))); [left|reflexivity]. }
  assert (attempts (log (run tree_b_then_int "R" disk_no_b).2)
          = [(parse "R/b", false); (parse "R/a", true)]) as Hatt
    by (vm_compute; reflexivity).
  split; [exact Hbad|]. split; [exact Hatt|].
  apply (Walk.generate_aborts_on_reached_name tree_b_then_int (parse "R")
           [joinpath (parse "R") (strip "a")] (init disk_no_b)
           (run tree_b_then_int "R" disk_no_b).1 (run tree_b_then_int "R" disk_no_b).2).
  - exact Hbad.
  - apply surjective_pairing.
  - intros p Hp. rewrite Hatt. apply list_elem_of_singleton in Hp as ->.
    vm_compute. intros Hin. inversion Hin as [|? ? ? Hin2]; subst.
    inversion Hin2 as [|? ? ? Hin3]; subst. inversion Hin3.
Defined.

(** C8 as stated fails: the key is one space, so [_create_dir] is called
    on the root itself; the root cannot be created, nothing is recorded and
    the child is not walked. *)
Lemma blank_name_not_recorded :
  all_space " " = true ∧
  (run tree_blank_key "R" disk_no_root).1 = Ok [] ∧
  created_dirs (run tree_blank_key "R" disk_no_root).2 = ∅ ∧
  attempts (log (run tree_blank_key "R" disk_no_root).2) = [(parse "R", false)].
Proof. split_and!; vm_compute; reflexivity. Qed.

(** A name made of U+3000 and a space. *)
Lemma blank_name_targets_current_witness :
  all_space wide_blank = true ∧
  joinpath (parse "R") (strip wide_blank) = parse "R" ∧
  ∃ (ok : bool) (s1 : state fsys),
    _create_dir (parse "R") (init disk0) = (Ok ok, s1) ∧
    attempts (log s1) = attempts (log (init disk0)) ++ [(parse "R", ok)] ∧
    leaf_item (parse "R") (str_item wide_blank) (init disk0) = (Ok tt, s1) ∧
    (ok = true →
       (∃ r, path_resolve (parse "R") (world s1) = Ok r ∧ to_str r ∈ created_dirs s1) ∧
       branch_item _process_node (parse "R") (SStr wide_blank, YList [str_item "x"])
           (init disk0) =
         (logger (ChildNode (parse "R")) ;;;
          _process_node (YList [str_item "x"]) (parse "R")) s1) ∧
    (ok = false →
       created_dirs s1 = created_dirs (init disk0) ∧
       branch_item _process_node (parse "R") (SStr wide_blank, YList [str_item "x"])
           (init disk0)
         = (Ok tt, s1)).
Proof.
  split; [reflexivity|].
  apply (Walk.blank_name_targets_current wide_blank (YList [str_item "x"])
           (parse "R") (init disk0)).
  reflexivity.
Defined.

(** The run on the key of U+3000 and a space: the root is recorded and
    the child is created right under it. *)
Lemma run_wide_blank_key :
  (run tree_wide_blank_key "R" disk0).1 = Ok ["/work/R"; "/work/R/x"].
Proof. vm_compute. reflexivity. Qed.


(** A second run where the first one met a refusal: the same call fails
    again and the record is the same. *)
Lemma rerun_with_refusal :
  let first := run tree_int_entry "R" disk_no_a in
  let second := generate tree_int_entry (parse "R") (init (world first.2)) in
  second.1 = Ok [] ∧ first.1 = Ok [] ∧
  attempts (log second.2) = [(parse "R/a", false)] ∧
  dirs (world second.2) = dirs (world first.2).
Proof. split_and!; vm_compute; reflexivity. Qed.

(** C10 as stated fails: the name [.] is not empty after stripping, yet
    [root / '.'] is the root, and the root itself is recorded and
    returned. *)
Lemma dot_name_records_root :
  strip "." ≠ EmptyString ∧
  joinpath (parse "R") (strip ".") = parse "R" ∧
  sim_resolve (parse "R") disk0 = Ok (Path "/" ["work"; "R"]) ∧
  plain_names tree_dot = false ∧
  to_str (Path "/" ["work"; "R"]) = "/work/R" ∧
  (run tree_dot "R" disk0).1 = Ok ["/work/R"].
Proof. split_and!; [done|vm_compute; reflexivity..]. Qed.

Lemma created_below_root_witness :
  plain_names tree_abcd = true ∧
  (∀ x, x ∈ created_dirs (run tree_abcd "R" disk0).2 →
        recorded_below (parse "R") disk0 x) ∧
  (∀ l, (run tree_abcd "R" disk0).1 = Ok l →
        ∀ x, x ∈ l → recorded_below (parse "R") disk0 x) ∧
  (∀ l rr, (run tree_abcd "R" disk0).1 = Ok l →
           sim_resolve (parse "R") disk0 = Ok rr → to_str rr ∉ l).
Proof.
  split; [reflexivity|].
  apply (SimWalk.created_below_root tree_abcd (parse "R") disk0).
  - reflexivity.
  - apply surjective_pairing.
Defined.

(** C7 fails on the code. With the absolute root [/R] and the tree
    [['']] the root itself is recorded; its path relative to the root has
    no parts, [parts[-1]] raises [IndexError], which is not the
    [ValueError] the loop catches: no line is rendered, no report is
    written and [generate] raises. *)
Theorem report_fails_on_root_entry :
  created_dirs (run tree_empty_name "/R" disk0).2 = {[ "/R" ]} ∧
  relative_to (parse "/R") (parse "/R") = Ok (Path EmptyString []) ∧
  tree_line (parse "/R") "/R" = Raise IndexError ∧
  (run tree_empty_name "/R" disk0).1 = Raise IndexError ∧
  files (world (run tree_empty_name "/R" disk0).2) = ∅.
Proof. split_and!; vm_compute; reflexivity. Qed.

End Runs.

(** ** Further properties of the generator *)

Module More.
Import Text Pathlib Py Gen Obs Notions Order Strip Segments.

Section More.
Context {W : Type} `{World W} `{YamlLib}.

Lemma names_sat_any (node : yaml) : names_sat (λ _, true) node = true.
Proof.
  induction node as [v|items|items IH] using Walk.yaml_walk_ind; [done| |].
  - cbn. apply forallb_forall. by intros [[]| |].
  - cbn. induction IH as [|[k child] items Hchild _ IHitems]; [done|].
    cbn in *. rewrite Hchild, IHitems. by destruct k.
Qed.

(** X1. White space around a name does not matter: a name padded on
    either side with white space, of any of the characters [str.strip]
    removes, makes the same call, on a sequence entry and on a mapping key
    alike. *)
Theorem padding_is_ignored (pre post name : string) (child : yaml)
    (cur : path) (s : state W) :
  all_space pre = true → all_space post = true →
  strip (pre +:+ name +:+ post) = strip name ∧
  leaf_item cur (str_item (pre +:+ name +:+ post)) s
    = leaf_item cur (str_item name) s ∧
  branch_item _process_node cur (SStr (pre +:+ name +:+ post), child) s
    = branch_item _process_node cur (SStr name, child) s.
Proof.
  intros Hpre Hpost.
  pose proof (strip_padding pre name post Hpre Hpost) as Hstrip.
  split; [done|]. unfold leaf_item, branch_item. cbn [strip_name str_item].
  by rewrite Hstrip.
Qed.

(** X2. The record never shrinks: whatever [generate] does, every string
    that was in [created_dirs] before is still there afterwards. *)
Theorem record_only_grows (config : yaml) (root : path) (s : state W) :
  created_dirs s ⊆ created_dirs (_process_node config root s).2 ∧
  created_dirs s ⊆ created_dirs (generate config root s).2.
Proof.
  assert (∀ s0, created_dirs s0 ⊆ created_dirs (_process_node config root s0).2) as Hwalk.
  { intros s0.
    refine (Walk.process_preserves (λ _, true) (λ _ _, True)
      (λ s1, created_dirs s0 ⊆ created_dirs s1) _ _ _ config root s0 _ _
      (names_sat_any config) I _ (surjective_pairing _)); [done|done| |done].
    intros cur name s1 ok s2 _ _ Hsub Hc. split; [|done].
    revert Hc. rewrite Walk.create_dir_cases.
    destruct (path_mkdir _ (world s1)) as [[[]|e] w].
    - destruct (path_exists _ w).
      + destruct (path_resolve _ w); intros [= <- <-]; cbn; set_solver.
      + by intros [= <- <-].
    - by intros [= <- <-]. }
  split; [apply Hwalk|].
  rewrite Walk.generate_cases.
  specialize (Hwalk (State (world s) (created_dirs s) (log s ++ [Started]))).
  destruct (_process_node config root _) as [[[]|e] s1]; cbn in Hwalk; [|done].
  destruct (generate_readme config root _) as [[b|e] s2] eqn:Hreadme;
    apply Walk.generate_readme_keeps in Hreadme as [Hcd _]; cbn in *; by rewrite Hcd.
Qed.

Lemma tree_line_escapes (root : path) (d : string) :
  escapes (tree_line root d) [IndexError].
Proof.
  unfold tree_line, relative_to.
  destruct (String.eqb _ _); [|done].
  destruct (strip_prefix _ _) as [rest|]; [|done]. cbn.
  destruct (last rest); [done|]. cbn. set_solver.
Qed.

Lemma dir_tree_escapes (root : path) (dirs : list string) :
  escapes (dir_tree root dirs) [IndexError].
Proof.
  induction dirs as [|d dirs IH]; cbn; [done|].
  pose proof (tree_line_escapes root d) as Hd.
  destruct (tree_line root d); [|done].
  by destruct (dir_tree root dirs).
Qed.

(** X3. No error of the directory calls or of the write leaves
    [generate]: an exception it raises is the [AttributeError] or
    [TypeError] of a name that is not a string, the [IndexError] of the
    report, or one raised by the [print] of the report's handler; and it
    raises exactly when the last record of its log is the interruption. *)
Theorem generate_escapes (config : yaml) (root : path) (s : state W) :
  (∀ e, (generate config root s).1 = Raise e →
        e ∈ [AttributeError; TypeError; IndexError] ∨ print_raises e) ∧
  (is_ok (generate config root s).1 = false ↔
     last (log (generate config root s).2) = Some Interrupted).
Proof.
  rewrite Walk.generate_cases.
  destruct (_process_node config root _) as [[[]|e] s1] eqn:Hwalk.
  - destruct (generate_readme config root _) as [[b|e] s2] eqn:Hreadme.
    + cbn. rewrite last_snoc. split; [done|]. by destruct b.
    + cbn. rewrite last_snoc. split; [|done]. intros e' [= <-].
      apply Walk.generate_readme_raises in Hreadme as [[Hd _]|[_ Hp]]; [|by right].
      left. pose proof (dir_tree_escapes root (sorted (created_dirs s1))) as He.
      cbn [created_dirs] in Hd. rewrite Hd in He. cbn in He. set_solver.
  - cbn. rewrite last_snoc. split; [|done]. intros e' [= <-]. left.
    apply Walk.process_raises_name in Hwalk as [->| ->]; set_solver.
Qed.

(** X4. What the result of [generate_readme] tells.  When the tree
    section cannot be built it raises [IndexError] before anything is
    written.  Otherwise it writes the report text to [README.md] and
    returns [True] exactly when both the write and the [print] after it
    went through; a failed write is not raised: the only exception that
    leaves is one of the [print] in the handler.  The record and the log
    are left alone. *)
Theorem readme_write_contained (config : yaml) (root : path) (s : state W) :
  created_dirs (generate_readme config root s).2 = created_dirs s ∧
  log (generate_readme config root s).2 = log s ∧
  match dir_tree root (sorted (created_dirs s)) with
  | Ok tree =>
      let text := report_text config (now (world s)) (size (created_dirs s)) tree in
      let written := write_text "README.md" text (world s) in
      let told := print_out (ReadmeWritten "README.md") written.2 in
      ((generate_readme config root s).1 = Ok true ↔
         is_ok written.1 = true ∧ is_ok told.1 = true) ∧
      (∀ e, (generate_readme config root s).1 = Raise e → print_raises e)
  | Raise e =>
      e = IndexError ∧ generate_readme config root s = (Raise IndexError, s)
  end.
Proof.
  destruct (Walk.generate_readme_keeps config root s _ _ (surjective_pairing _))
    as [Hcd Hlog].
  split; [done|]. split; [done|].
  pose proof (dir_tree_escapes root (sorted (created_dirs s))) as Hd.
  destruct (dir_tree root (sorted (created_dirs s))) as [tree|e] eqn:Htree.
  - cbv zeta. split.
    + rewrite Walk.generate_readme_cases, Htree. cbv zeta.
      destruct (write_text _ _ (world s)) as [[[]|e] w]; cbn [fst snd].
      * destruct (print_out (ReadmeWritten _) w) as [[[]|e] w']; cbn [fst snd is_ok].
        -- done.
        -- split; [|by intros [_ ?]].
           by destruct (print_out (ReadmeNotWritten e) w').1.
      * split; [|by intros [? _]].
        by destruct (print_out (ReadmeNotWritten e) w).1.
    + intros e He.
      destruct (Walk.generate_readme_raises config root s e _
                  (eq_trans (surjective_pairing _) (f_equal (λ r, (r, _)) He)))
        as [[Hno _]|[_ Hp]]; [congruence|done].
  - cbn in Hd. apply list_elem_of_singleton in Hd as ->.
    split; [done|]. by apply Walk.generate_readme_no_tree.
Qed.

(** X5. The count printed in the report is the number of lines of its
    tree section: when the section is built it has one line for each
    member of [created_dirs]. *)
Theorem report_count_matches (root : path) (cd : gset string)
    (tree : list string) :
  dir_tree root (sorted cd) = Ok tree → length tree = size cd.
Proof.
  intros Htree%Report.dir_tree_length. rewrite Htree.
  unfold sorted. rewrite merge_sort_Permutation. done.
Qed.

(** X6. A tree that is a scalar, [null] or a value of an unsupported
    type, is walked without a single directory call: the record stays
    empty, a list [generate] returns is empty, and the only exception it
    can raise is one of the [print] in the report's handler. *)
Theorem scalar_tree_creates_nothing (v : scalar) (root : path) (w : W) :
  (∀ l, (generate (YScalar v) root (init w)).1 = Ok l → l = []) ∧
  (∀ e, (generate (YScalar v) root (init w)).1 = Raise e → print_raises e) ∧
  created_dirs (generate (YScalar v) root (init w)).2 = ∅ ∧
  attempts (log (generate (YScalar v) root (init w)).2) = [] ∧
  _process_node (YScalar v) root (init w)
    = (Ok tt, State w ∅ [if decide (v = SNull) then EmptyNode else Unsupported]).
Proof.
  assert (sorted ∅ = []) as Hs.
  { unfold sorted. by rewrite elements_empty. }
  rewrite Walk.generate_cases.
  assert (∃ ev, attempt_of ev = None ∧
            _process_node (YScalar v) root
              (State (world (init w)) (created_dirs (init w)) (log (init w) ++ [Started]))
            = (Ok tt, State w ∅ [Started; ev])) as (ev & Hev & ->).
  { destruct v; eexists; (split; [|reflexivity]); done. }
  cbn [world created_dirs log].
  destruct (generate_readme (YScalar v) root _) as [[b|e] s2] eqn:Hreadme.
  - destruct (Walk.generate_readme_keeps _ _ _ _ _ Hreadme) as [Hcd Hlog].
    cbn [created_dirs log] in Hcd, Hlog. cbn [fst snd created_dirs log].
    rewrite Hcd, Hlog, Hs. split_and!; [by intros l [= <-]|done|done| |by destruct v].
    unfold attempts. cbn. rewrite Hev. by destruct b.
  - destruct (Walk.generate_readme_keeps _ _ _ _ _ Hreadme) as [Hcd Hlog].
    cbn [created_dirs log] in Hcd, Hlog. cbn [fst snd created_dirs log].
    rewrite Hcd, Hlog. split_and!; [done| |done| |by destruct v].
    + intros e' [= <-].
      apply Walk.generate_readme_raises in Hreadme as [[Hd _]|[_ Hp]]; [|done].
      cbn [created_dirs] in Hd. by rewrite Hs in Hd.
    + unfold attempts. cbn. by rewrite Hev.
Qed.

Lemma parse_rooted (rest : string) :
  anchor (parse (String "/" rest)) ≠ EmptyString.
Proof.
  unfold parse.
  destruct (splitroot (String "/" rest)) as [root rest'] eqn:Hsplit. cbn.
  revert Hsplit. unfold splitroot. repeat case_match; by intros [= <- <-].
Qed.

(** X7. A name that begins with a slash after stripping leaves the tree:
    the call is made at the absolute path of the name, whatever the
    current path and the root are. *)
Theorem absolute_name_ignores_root (name rest : string) (cur : path) (s : state W) :
  strip name = String "/" rest →
  joinpath cur (strip name) = parse (strip name) ∧
  anchor (parse (strip name)) ≠ EmptyString ∧
  ∃ (ok : bool) (s1 : state W),
    _create_dir (parse (strip name)) s = (Ok ok, s1) ∧
    leaf_item cur (str_item name) s = (Ok tt, s1) ∧
    attempts (log s1) = attempts (log s) ++ [(parse (strip name), ok)].
Proof.
  intros Hname. pose proof (parse_rooted rest) as Hroot. rewrite <- Hname in Hroot.
  assert (joinpath cur (strip name) = parse (strip name)) as Hj.
  { unfold joinpath. by destruct (String.eqb_spec (anchor (parse (strip name))) EmptyString). }
  split; [done|]. split; [done|].
  destruct (Walk.create_dir_total (parse (strip name)) s) as (ok & s1 & Hc).
  exists ok, s1. split; [done|]. split.
  - apply (Walk.leaf_item_str _ _ _ ok). by rewrite Hj.
  - by apply Walk.create_dir_attempted.
Qed.

Lemma attempted_one (ev : event) (p : path) (ok : bool) :
  attempt_of ev = Some (p, ok) → attempted [ev] = [p].
Proof. intros Hev. unfold attempted, attempts. cbn. by rewrite Hev. Qed.

Lemma attempted_none (ev : event) : attempt_of ev = None → attempted [ev] = [].
Proof. intros Hev. unfold attempted, attempts. cbn. by rewrite Hev. Qed.

Lemma no_failure_one (ev : event) (p : path) (ok : bool) (l : list event) :
  attempt_of ev = Some (p, ok) → no_failure ([ev] ++ l) → ok = true ∧ no_failure l.
Proof.
  intros Hev [Hone Hl]%Walk.no_failure_app. split; [|done].
  unfold no_failure, attempts in Hone. cbn in Hone. rewrite Hev in Hone.
  by inversion Hone.
Qed.

(** The calls of a walk follow the plan of the tree: they are taken from
    it in its order, and they are all of it when every name is a string
    and no call fails. *)
Lemma process_follows_plan (node : yaml) :
  ∀ (cur : path) (s : state W) r s',
    _process_node node cur s = (r, s') →
    ∃ l, log s' = log s ++ l ∧
         attempted l `sublist_of` plan node cur ∧
         (all_names_str node = true → no_failure l →
            r = Ok tt ∧ attempted l = plan node cur).
Proof.
  induction node as [v|items|items IH] using Walk.yaml_walk_ind; intros cur s r s'.
  - intros Hrun. assert (∃ ev, attempt_of ev = None ∧ r = Ok tt ∧
                           log s' = log s ++ [ev]) as (ev & Hev & -> & ->).
    { destruct v; injection Hrun as <- <-;
        [exists EmptyNode|exists Unsupported..]; by split_and!. }
    exists [ev]. rewrite attempted_none by done. by split_and!.
  - revert s. induction items as [|item items IHitems]; intros s.
    + intros [= <- <-]. exists []. rewrite app_nil_r. by split_and!.
    + rewrite Walk.process_list_cons. unfold bind at 1.
      destruct (is_str item) eqn:Hstr.
      * apply Walk.is_str_inv in Hstr as [name ->].
        destruct (Walk.create_dir_total (joinpath cur (strip name)) s) as (ok & s1 & Hc).
        rewrite (Walk.leaf_item_str _ _ _ _ _ Hc).
        destruct (Walk.create_dir_log _ _ _ _ Hc) as (ev & Hev & Hat).
        intros (l & Hl & Hsub & Hall)%IHitems.
        exists ([ev] ++ l). rewrite Hl, Hev, <- app_assoc. split; [done|].
        rewrite Walk.attempted_app, (attempted_one _ _ _ Hat).
        split; [by apply sublist_skip|].
        intros Hnames [_ Hnf]%(no_failure_one _ _ _ _ Hat).
        destruct (Hall Hnames Hnf) as [-> ->]. done.
      * rewrite Walk.leaf_item_not_str by done. intros [= <- <-].
        exists []. rewrite app_nil_r. split_and!; [done|apply sublist_nil_l|].
        cbn. by rewrite Hstr.
  - revert s. induction IH as [|[k child] items IHchild _ IHitems]; intros s.
    + intros [= <- <-]. exists []. rewrite app_nil_r. by split_and!.
    + rewrite Walk.process_dict_cons. unfold bind at 1.
      destruct (is_str (YScalar k)) eqn:Hstr.
      * apply Walk.is_str_inv in Hstr as [name [= ->]].
        destruct (Walk.create_dir_total (joinpath cur (strip name)) s) as (ok & s1 & Hc).
        rewrite (Walk.branch_item_str _ _ _ _ _ _ Hc).
        destruct (Walk.create_dir_log _ _ _ _ Hc) as (ev & Hev & Hat).
        change (plan (YDict ((SStr name, child) :: items)) cur)
          with ((joinpath cur (strip name) :: plan child (joinpath cur (strip name)))
                ++ plan (YDict items) cur).
        change (all_names_str (YDict ((SStr name, child) :: items)))
          with (all_names_str child && all_names_str (YDict items)).
        destruct ok.
        -- unfold bind at 1. unfold logger at 1. cbn [world created_dirs log].
           destruct (_process_node child _ _) as [[[]|e] s2] eqn:Hchild;
             apply IHchild in Hchild as (lc & Hlc & Hsubc & Hallc);
             cbn [log snd] in Hlc, Hsubc, Hallc.
           ++ intros (l & Hl & Hsub & Hall)%IHitems.
              exists ([ev] ++ [ChildNode (joinpath cur (strip name))] ++ lc ++ l).
              rewrite Hl, Hlc, Hev, <- !app_assoc. split; [done|].
              rewrite !Walk.attempted_app, (attempted_one _ _ _ Hat).
              change (attempted [ChildNode (joinpath cur (strip name))]) with (@nil path).
              cbn [app]. split; [by apply sublist_skip, sublist_app|].
              intros [Hn1 Hn2]%andb_true_iff [_ Hnf]%(no_failure_one _ _ _ _ Hat).
              assert (no_failure lc ∧ no_failure l) as [Hnfc Hnfl].
              { revert Hnf.
                rewrite (Walk.no_failure_app [ChildNode (joinpath cur (strip name))] (lc ++ l)),
                  (Walk.no_failure_app lc l). tauto. }
              destruct (Hallc Hn1 Hnfc) as [_ ->].
              destruct (Hall Hn2 Hnfl) as [-> ->]. done.
           ++ intros [= <- <-].
              exists ([ev] ++ [ChildNode (joinpath cur (strip name))] ++ lc).
              rewrite Hlc, Hev, <- !app_assoc. split; [done|].
              rewrite !Walk.attempted_app, (attempted_one _ _ _ Hat).
              change (attempted [ChildNode (joinpath cur (strip name))]) with (@nil path).
              cbn [app]. split; [by apply sublist_skip, sublist_inserts_r|].
              intros [Hn1 Hn2]%andb_true_iff [_ Hnf]%(no_failure_one _ _ _ _ Hat).
              assert (no_failure lc) as Hnfc.
              { revert Hnf.
                rewrite (Walk.no_failure_app [ChildNode (joinpath cur (strip name))] lc).
                tauto. }
              by destruct (Hallc Hn1 Hnfc) as [? _].
        -- intros (l & Hl & Hsub & Hall)%IHitems.
           exists ([ev] ++ l). rewrite Hl, Hev, <- app_assoc. split; [done|].
           rewrite Walk.attempted_app, (attempted_one _ _ _ Hat).
           split; [by apply sublist_skip, sublist_inserts_l|].
           by intros _ [? _]%(no_failure_one _ _ _ _ Hat).
      * rewrite Walk.branch_item_not_str by done. intros [= <- <-].
        exists []. rewrite app_nil_r. split_and!; [done|apply sublist_nil_l|].
        cbn. by destruct k.
Qed.

(** X8. The walk makes no call the tree does not name: the calls of a
    run are taken from the plan of the tree, in the order of the plan. *)
Theorem calls_within_plan (config : yaml) (root : path) (w : W) :
  attempted (log (generate config root (init w)).2) `sublist_of` plan config root.
Proof.
  destruct (Walk.generate_attempts config root (init w) _ _ (surjective_pairing _))
    as (rw & sw & Hwalk & Hatt).
  unfold attempted. rewrite Hatt.
  apply process_follows_plan in Hwalk as (l & Hl & Hsub & _).
  cbn [init log app] in Hl. rewrite Hl.
  change (attempts (Started :: l)) with (attempts l). exact Hsub.
Qed.

(** X9. Completeness: when every name of the tree is a string and the
    log of the run records no failed call, the walk returned normally and
    made exactly the calls of the plan, one for every name of the tree,
    each of them a success; the run can then fail on the report only. *)
Theorem complete_when_nothing_fails (config : yaml) (root : path) (w : W) :
  all_names_str config = true →
  no_failure (log (generate config root (init w)).2) →
  attempts (log (generate config root (init w)).2)
    = (λ p, (p, true)) <$> plan config root ∧
  (_process_node config root (State w ∅ [Started])).1 = Ok tt ∧
  (∀ e, (generate config root (init w)).1 = Raise e →
        e = IndexError ∨ print_raises e).
Proof.
  intros Hnames Hnf.
  destruct (Walk.generate_attempts config root (init w) _ _ (surjective_pairing _))
    as (rw & sw & Hwalk & Hatt).
  unfold no_failure in Hnf. rewrite Hatt in *.
  apply process_follows_plan in Hwalk as Hplan.
  destruct Hplan as (l & Hl & _ & Hall). cbn [init log app] in Hl.
  rewrite Hl in Hnf |- *.
  change (attempts (Started :: l)) with (attempts l) in Hnf |- *.
  assert (no_failure l) as Hnfl by done.
  destruct (Hall Hnames Hnfl) as [-> Hplan]. split_and!.
  - rewrite <- Hplan. unfold attempted. clear -Hnfl. unfold no_failure in Hnfl.
    induction Hnfl as [|[p b] atts Hb _ IH]; [done|]. cbn in *. by rewrite Hb, <- IH.
  - cbn [init world created_dirs log app] in Hwalk. by rewrite Hwalk.
  - rewrite Walk.generate_cases, Hwalk.
    destruct (generate_readme config root _) as [[b|e] s2] eqn:Hreadme; [done|].
    intros e' [= <-].
    apply Walk.generate_readme_raises in Hreadme as [[Hd _]|[_ Hp]]; [|by right].
    left. pose proof (dir_tree_escapes root (sorted (created_dirs sw))) as He.
    cbn [created_dirs] in Hd. rewrite Hd in He. cbn in He. set_solver.
Qed.

Lemma process_faithful `{!Replayable W} (node : yaml) (cur : path) (s : state W) r s' :
  faithful_record s → _process_node node cur s = (r, s') → faithful_record s'.
Proof.
  intros Hs Hwalk.
  refine (Walk.process_preserves (λ _, true) (λ _ _, True) faithful_record
    _ _ _ node cur s r s' (names_sat_any node) I Hs Hwalk); [done| |].
  - intros s0 ev Hev [Hlog Hrec]. split.
    + intros p. cbn [log world created_dirs].
      rewrite Walk.attempts_snoc_none by done. apply Hlog.
    + intros x Hx. cbn [log world created_dirs] in *.
      rewrite Walk.attempts_snoc_none by done. by apply Hrec.
  - intros cur0 name s0 ok s1 _ _ [Hlog Hrec] Hc. split; [|done].
    pose proof (Walk.create_dir_attempted _ _ _ _ Hc) as Hatt.
    pose proof (Walk.create_dir_world _ _ _ _ Hc) as Hw.
    assert (later (world s0) (world s1)) as Hl by (rewrite Hw; apply Walk.later_mkdir).
    assert (∀ p r0, stays_created p r0 (world s0) → stays_created p r0 (world s1)) as Hkeep.
    { intros p r0 Hp w2 Hw2. apply Hp. by eapply Walk.later_trans. }
    set (q := joinpath cur0 (strip name)) in *.
    assert (ok = true → ∃ r0, stays_created q r0 (world s1) ∧
                              created_dirs s1 = {[to_str r0]} ∪ created_dirs s0) as Hnew.
    { intros ->. revert Hc Hw. rewrite Walk.create_dir_cases.
      destruct (path_mkdir q (world s0)) as [[[]|e] w'] eqn:Hmk; [|done].
      destruct (path_exists q w') eqn:Hex; [|done].
      destruct (path_resolve q w') as [res|e] eqn:Hres; [|done].
      intros [= <-] _. exists res. split; [|done]. cbn [world].
      intros w2 Hw2. destruct (replay_mkdir q (world s0) w2) as (_ & _ & Hsame).
      { by rewrite Hmk. }
      rewrite Hmk in Hsame. destruct (Hsame eq_refl) as [-> ->]. done. }
    assert (ok = false → created_dirs s1 = created_dirs s0) as Hold.
    { intros ->. by apply (Walk.create_dir_failed_keeps _ _ _ Hc). }
    split.
    + intros p. rewrite Hatt. intros [Hin|Hin%list_elem_of_singleton]%elem_of_app.
      * destruct (Hlog p Hin) as (r0 & Hr0 & Hx). exists r0. split; [by apply Hkeep|].
        destruct ok; [destruct (Hnew eq_refl) as (? & _ & ->); set_solver|].
        by rewrite Hold.
      * injection Hin as -> <-. destruct (Hnew eq_refl) as (r0 & Hr0 & ->).
        exists r0. split; [done|set_solver].
    + intros x Hx. destruct ok.
      * destruct (Hnew eq_refl) as (r0 & Hr0 & Hcd). rewrite Hcd in Hx.
        apply elem_of_union in Hx as [->%elem_of_singleton|Hx].
        -- exists q, r0. rewrite Hatt. split_and!; [|done..].
           apply elem_of_app. right. by apply list_elem_of_singleton.
        -- destruct (Hrec x Hx) as (p & r1 & Hin & Hr1 & ->). exists p, r1.
           rewrite Hatt. split_and!; [|by apply Hkeep|done].
           apply elem_of_app. by left.
      * rewrite Hold in Hx by done.
        destruct (Hrec x Hx) as (p & r1 & Hin & Hr1 & ->). exists p, r1.
        rewrite Hatt. split_and!; [|by apply Hkeep|done].
        apply elem_of_app. by left.
Qed.

(** At the end of a run by a fresh generator the record is faithful, for
    the world the run left. *)
Lemma generate_faithful `{!Replayable W} (config : yaml) (root : path) (w : W) :
  let s' := (generate config root (init w)).2 in
  (∀ p, (p, true) ∈ attempts (log s') →
        ∃ r, path_exists p (world s') = true ∧ path_resolve p (world s') = Ok r ∧
             to_str r ∈ created_dirs s') ∧
  (∀ x, x ∈ created_dirs s' →
        ∃ p r, (p, true) ∈ attempts (log s') ∧
               path_resolve p (world s') = Ok r ∧ x = to_str r).
Proof.
  intros s'.
  destruct (Walk.generate_attempts config root (init w) _ _ (surjective_pairing _))
    as (rw & sw & Hwalk & Hatt).
  fold s' in Hatt.
  assert (faithful_record sw) as [Hlog Hrec].
  { eapply process_faithful; [|exact Hwalk]. split.
    - intros p Hin. cbn in Hin. by apply elem_of_nil in Hin.
    - intros x Hx. cbn in Hx. set_solver. }
  assert (later (world sw) (world s') ∧ created_dirs s' = created_dirs sw) as [Hl Hcd].
  { subst s'. rewrite Walk.generate_cases, Hwalk. destruct rw as [[]|e]; [|done].
    destruct (generate_readme config root _) as [[b|e] s2] eqn:Hreadme;
      pose proof (Walk.generate_readme_later _ _ _ _ _ Hreadme) as Hl;
      apply Walk.generate_readme_keeps in Hreadme as [Hcd _]; done. }
  rewrite Hatt, Hcd. split.
  - intros p (r0 & Hr0 & Hx)%Hlog. destruct (Hr0 _ Hl) as [??]. by exists r0.
  - intros x (p & r0 & Hin & Hr0 & ->)%Hrec. destruct (Hr0 _ Hl) as [??].
    by exists p, r0.
Qed.

(** X10. In a settled world the record says what the log says: a string
    is in [created_dirs] at the end of a run exactly when the log records
    a successful call on a path that resolves to it. *)
Theorem record_matches_log `{!Replayable W} (config : yaml) (root : path) (w : W)
    (x : string) :
  x ∈ created_dirs (generate config root (init w)).2 ↔
  ∃ p r, (p, true) ∈ attempts (log (generate config root (init w)).2) ∧
         path_resolve p (world (generate config root (init w)).2) = Ok r ∧
         x = to_str r.
Proof.
  destruct (generate_faithful config root w) as [Hlog Hrec]. split; [apply Hrec|].
  intros (p & r & Hin & Hres & ->).
  destruct (Hlog p Hin) as (r0 & _ & Hres0 & Hx). congruence.
Qed.

(** X11. In a settled world every directory the log reports as created
    exists when the run ends. *)
Theorem created_dirs_exist `{!Replayable W} (config : yaml) (root : path) (w : W)
    (p : path) :
  (p, true) ∈ attempts (log (generate config root (init w)).2) →
  path_exists p (world (generate config root (init w)).2) = true.
Proof.
  destruct (generate_faithful config root w) as [Hlog _].
  by intros (r & ? & _)%Hlog.
Qed.

End More.

End More.

(** ** The short circuit of a mapping *)

Module ShortCircuit.
Import Text Pathlib Py Gen Obs Notions.

Section ShortCircuit.
Context {W : Type} `{World W} `{YamlLib}.

(** C1, as amended. A mapping is handled item by item in its order.  For
    the item [(name, child)] the directory [current_path / name.strip()]
    is attempted once; when the call succeeds the walk goes on with
    [child] at the new path and then with the remaining items; when it
    fails nothing is recorded and the walk goes on with the remaining
    items straight from the state the failed call left, so nothing of
    [child] is attempted or created.  When moreover every name of the tree
    strips to an ordinary single segment and the filesystem is one in
    which a directory call made once is settled, no path below a failed
    one is attempted at any time of the run, and every recorded directory
    comes from a successful call on a path that is not below it. *)
Theorem branch_short_circuit `{!Replayable W} :
  (∀ (name : string) (child : yaml) (rest : list (scalar * yaml))
     (cur : path) (s : state W),
     let new_path := joinpath cur (strip name) in
     ∃ (ok : bool) (s1 : state W),
       _create_dir new_path s = (Ok ok, s1) ∧
       attempts (log s1) = attempts (log s) ++ [(new_path, ok)] ∧
       (ok = true →
          _process_node (YDict ((SStr name, child) :: rest)) cur s =
            (logger (ChildNode new_path) ;;;
             _process_node child new_path ;;;
             _process_node (YDict rest) cur) s1) ∧
       (ok = false →
          created_dirs s1 = created_dirs s ∧
          _process_node (YDict [(SStr name, child)]) cur s = (Ok tt, s1) ∧
          _process_node (YDict ((SStr name, child) :: rest)) cur s =
            _process_node (YDict rest) cur s1)) ∧
  (∀ (config : yaml) (root : path) (w : W) (p : path),
     plain_names config = true →
     (p, false) ∈ attempts (log (generate config root (init w)).2) →
     (∀ q b, (q, b) ∈ attempts (log (generate config root (init w)).2) →
             ¬ strictly_below p q) ∧
     (∀ x, x ∈ created_dirs (generate config root (init w)).2 →
           ∃ q r, (q, true) ∈ attempts (log (generate config root (init w)).2) ∧
                  path_resolve q (world (generate config root (init w)).2) = Ok r ∧
                  x = to_str r ∧ ¬ strictly_below p q)).
Proof.
  split.
  - intros name child rest cur s new_path.
    destruct (Walk.create_dir_total new_path s) as (ok & s1 & Hc).
    exists ok, s1. split; [done|].
    split; [by apply Walk.create_dir_attempted|].
    split.
    + intros ->. rewrite Walk.process_dict_cons. unfold bind at 1.
      rewrite (Walk.branch_item_str _ _ _ _ _ _ Hc). cbn.
      unfold bind, logger. cbn. done.
    + intros ->. split; [|split].
      * by apply (Walk.create_dir_failed_keeps _ _ _ Hc).
      * rewrite Walk.process_dict_cons. unfold bind at 1.
        by rewrite (Walk.branch_item_str _ _ _ _ _ _ Hc).
      * rewrite Walk.process_dict_cons. unfold bind at 1.
        by rewrite (Walk.branch_item_str _ _ _ _ _ _ Hc).
  - intros config root w p Hnames Hp.
    assert (∀ q b, (q, b) ∈ attempts (log (generate config root (init w)).2) →
                   ¬ strictly_below p q) as Hnone.
    { intros q b Hq.
      by apply (Walk.no_attempt_below_failed config root w _ _ p q b Hnames
                  (surjective_pairing _)). }
    split; [done|]. intros x Hx.
    destruct (More.generate_faithful config root w) as [_ Hrec].
    destruct (Hrec x Hx) as (q & r & Hq & Hres & ->).
    exists q, r. split_and!; [done..|]. by apply (Hnone q true).
Qed.

End ShortCircuit.

End ShortCircuit.

(** ** The lines of the report *)

Module Lines.
Import Text Pathlib Py Gen Obs Notions Segments.

Lemma noslash_of_plain (seg : string) :
  plain seg = true →
  forallb (λ c, negb (Ascii.eqb c "/")) (String.list_ascii_of_string seg) = true.
Proof. unfold plain. by intros [_ ?]%andb_true_iff. Qed.

Lemma proper_of_plain (seg : string) : plain seg = true → proper_part seg = true.
Proof.
  unfold plain, proper_part.
  by intros [[[-> ->]%andb_true_iff _]%andb_true_iff _]%andb_true_iff.
Qed.

Lemma split_after_segment (seg t : string) :
  forallb (λ c, negb (Ascii.eqb c "/")) (String.list_ascii_of_string seg) = true →
  split "/" (seg +:+ String "/" t) = seg :: split "/" t.
Proof.
  induction seg as [|c seg IH]; [done|].
  change (String c seg +:+ String "/" t) with (String c (seg +:+ String "/" t)).
  cbn -[split]. intros [Hc Hrest]%andb_true_iff. apply negb_true_iff in Hc.
  cbn. rewrite Hc. by rewrite IH.
Qed.

Lemma split_join (segs : list string) :
  segs ≠ [] → Forall (λ seg, plain seg = true) segs →
  split "/" (join "/" segs) = segs.
Proof.
  intros Hne Hall. induction Hall as [|seg segs Hseg Hall IH]; [done|].
  destruct segs as [|seg2 segs].
  - cbn. by apply split_no_slash, noslash_of_plain.
  - change (join "/" (seg :: seg2 :: segs))
      with (seg +:+ String "/" (join "/" (seg2 :: segs))).
    rewrite split_after_segment by by apply noslash_of_plain.
    by rewrite IH.
Qed.

Lemma filter_plain (segs : list string) :
  Forall (λ seg, plain seg = true) segs →
  filter (λ x, proper_part x = true) segs = segs.
Proof.
  induction 1 as [|seg segs Hseg _ IH]; [done|].
  rewrite filter_cons_True by by apply proper_of_plain. by rewrite IH.
Qed.

Lemma join_starts_plain (segs : list string) :
  segs ≠ [] → Forall (λ seg, plain seg = true) segs →
  ∃ c rest, join "/" segs = String c rest ∧ c ≠ "/"%char.
Proof.
  intros Hne Hall. destruct Hall as [|seg segs Hseg _]; [done|].
  pose proof (noslash_of_plain _ Hseg) as Hns.
  destruct seg as [|c seg]; [done|]. cbn in Hns.
  apply andb_true_iff in Hns as [Hc%negb_true_iff%Ascii.eqb_neq _].
  destruct segs; cbn; eauto.
Qed.

(** The text of a clean absolute path reads back as the path. *)
Lemma parse_to_str (segs : list string) :
  Forall (λ seg, plain seg = true) segs →
  parse (to_str (Path "/" segs)) = Path "/" segs.
Proof.
  intros Hall. unfold to_str. cbn [anchor parts].
  destruct (decide (segs = [])) as [->|Hne]; [done|].
  destruct (join_starts_plain segs Hne Hall) as (c & rest & Hj & Hc).
  unfold parse.
  assert (splitroot ("/" +:+ join "/" segs) = ("/", join "/" segs)) as ->.
  { rewrite Hj. cbn. by destruct c as [[] [] [] [] [] [] [] []]. }
  by rewrite split_join, filter_plain.
Qed.

Lemma strip_prefix_app (pre rest : list string) :
  strip_prefix pre (pre ++ rest) = Some rest.
Proof. induction pre as [|x pre IH]; [done|]. cbn. by rewrite String.eqb_refl. Qed.

(** X12. With a relative root no absolute path is expressed relative to
    it: the tree section of the report lists every recorded path in full,
    without indentation. *)
Theorem relative_root_lists_full_paths (root : path) (dirs : list string) :
  anchor root = EmptyString →
  Forall (λ d, ∃ rest, d = String "/" rest) dirs →
  dir_tree root dirs = Ok ((λ d, "- " +:+ d) <$> dirs).
Proof.
  intros Hroot Hall. induction Hall as [|d dirs [rest ->] _ IH]; [done|].
  cbn [dir_tree]. rewrite IH.
  assert (tree_line root (String "/" rest) = Ok ("- " +:+ String "/" rest)) as ->; [|done].
  apply Report.tree_line_outside. unfold relative_to. rewrite Hroot.
  pose proof (More.parse_rooted rest) as Hne.
  by destruct (String.eqb_spec (anchor (parse (String "/" rest))) EmptyString).
Qed.

(** X13. Under a clean absolute root, a recorded path that is the root
    followed by ordinary segments gets the line of its depth: four spaces
    for each segment between the root and the last one, then a dash and
    the last segment. *)
Theorem line_under_absolute_root (rp above : list string) (label : string) :
  Forall (λ seg, plain seg = true) rp →
  Forall (λ seg, plain seg = true) (above ++ [label]) →
  tree_line (Path "/" rp) (to_str (Path "/" (rp ++ above ++ [label])))
    = Ok (times "    " (length above) +:+ "- " +:+ label).
Proof.
  intros Hrp Hsegs.
  apply (Report.tree_line_inside _ _ (Path EmptyString (above ++ [label]))); [|done].
  rewrite parse_to_str by by apply Forall_app.
  unfold relative_to. cbn [anchor parts]. by rewrite strip_prefix_app.
Qed.

End Lines.

(** ** The constructor and the script: properties *)

Module Script.
Import Text Pathlib Py Gen Obs Notions App.

Section Script.
Context {W : Type} `{World W} `{YamlLib} `{LogFiles W}.

Lemma load_config_log (src : string) (s : state W) :
  attempts (log (_load_config src s).2) = attempts (log s) ∧
  world (_load_config src s).2 = world s ∧
  created_dirs (_load_config src s).2 = created_dirs s.
Proof.
  unfold _load_config, try_except, bind, lift, logger, raise, do_read.
  destruct (read_text src (world s)) as [text|e]; cbn [fst snd log world created_dirs];
    [|by rewrite Walk.attempts_snoc_none].
  destruct (safe_load text) as [cfg|e]; cbn [fst snd log world created_dirs];
    [|by rewrite Walk.attempts_snoc_none].
  destruct (getitem cfg "directory_structure"); cbn [fst snd log world created_dirs];
    by rewrite !Walk.attempts_snoc_none.
Qed.

Lemma setup_logger_keeps (root_dir : string) (a : app W) :
  log (setup_logger root_dir a).2.1 = log a.1 ∧
  created_dirs (setup_logger root_dir a).2.1 = created_dirs a.1 ∧
  (setup_logger root_dir a).2.2 = a.2.
Proof.
  unfold setup_logger.
  destruct (mkdir_one _ _) as [[[]|e] w1]; [|done].
  by destruct (open_log _ w1) as [[[]|e] w2].
Qed.

(** X14. The constructor makes a generator only from a loaded
    configuration: it raises exactly when the logger cannot be set up or
    [_load_config] raises; the generator it returns holds the loaded
    tree, the path of [root_dir] and an empty record; and it makes no
    directory call of its own. *)
Theorem construct_outcome (config_path root_dir : string) (a : app W) :
  let res := construct config_path root_dir a in
  let setup := setup_logger root_dir a in
  attempts (log res.2.1) = attempts (log a.1) ∧
  (is_ok res.1 = false ↔
     is_ok setup.1 = false ∨
     is_ok (_load_config config_path setup.2.1).1 = false) ∧
  (∀ g, res.1 = Ok g →
        root g = parse root_dir ∧
        created_dirs res.2.1 = ∅ ∧
        setup.1 = Ok (log_file g) ∧
        (_load_config config_path setup.2.1).1 = Ok (config g) ∧
        res.2.2 = a.2 ++ [Initialised root_dir]).
Proof.
  intros res setup. subst res. unfold construct. fold setup.
  destruct (setup_logger_keeps root_dir a) as (Hlog & Hcd & Hnotes). fold setup in Hlog, Hcd, Hnotes.
  destruct setup as [[file|e] a1] eqn:Hsetup; cbn [fst snd] in *.
  - unfold with_note. cbn [fst snd].
    destruct (load_config_log config_path a1.1) as (Hev & _ & _).
    destruct (_load_config config_path a1.1) as [[cfg|e] s3]; cbn [fst snd log] in *.
    + split_and!.
      * by rewrite Hev, Hlog.
      * split; [done|]. by intros [?|?].
      * intros g [= <-]. cbn. by rewrite Hnotes.
    + split_and!.
      * by rewrite Hev, Hlog.
      * split; [by right|done].
      * done.
  - split_and!; [by rewrite Hlog| |done]. split; [by left|done].
Qed.

Lemma construct_root (a : app W) (g : generator) :
  (construct "config.yaml" root_directory a).1 = Ok g →
  root g = parse root_directory.
Proof.
  unfold construct.
  destruct (setup_logger root_directory a) as [[file|e] a1]; [|done].
  destruct (_load_config "config.yaml" _) as [[cfg|e] s3]; [|done].
  by intros [= <-].
Qed.

(** X15. The script ends normally whenever the constructor returned: an
    exception of [generate] is logged as a failed run and swallowed, so
    only a failure of the constructor, which is called outside the [try],
    leaves the script; the root it walks is the relative path of
    [root_directory]. *)
Theorem main_outcome (a : app W) :
  match construct "config.yaml" root_directory a with
  | (Raise e, a1) => main a = (Raise e, a1)
  | (Ok g, a1) =>
      (main a).1 = Ok tt ∧
      anchor (root g) = EmptyString ∧
      (main a).2.1 = (generate (config g) (root g) a1.1).2 ∧
      (last (main a).2.2 = Some RunFailed ↔
         is_ok (generate (config g) (root g) a1.1).1 = false) ∧
      (last (main a).2.2 = Some (LogFileAt (log_file g)) ↔
         is_ok (generate (config g) (root g) a1.1).1 = true)
  end.
Proof.
  pose proof (construct_root a) as Hroot.
  assert (anchor (parse root_directory) = EmptyString) as Hrel by by vm_compute.
  unfold main.
  destruct (construct "config.yaml" root_directory a) as [[g|e] a1]; [|done].
  specialize (Hroot g eq_refl).
  destruct (generate (config g) (root g) a1.1) as [[l|e] s2]; cbn;
    rewrite last_snoc; (split_and!; [done|by rewrite Hroot|done|done|done]).
Qed.

End Script.

End Script.

(** ** The report on the simulated world *)

Module SimReport.
Import Text Pathlib Py Gen Sim Obs Notions Cases Segments.

Lemma dir_tree_ok (root : path) (dirs : list string) :
  Forall (λ d, is_ok (tree_line root d) = true) dirs →
  is_ok (dir_tree root dirs) = true.
Proof.
  induction 1 as [|d dirs Hd _ IH]; [done|]. cbn.
  destruct (tree_line root d); [|done]. by destruct (dir_tree root dirs).
Qed.

Lemma target_absolute_plain (rp : list string) (fs : fsys) :
  Forall (λ seg, plain seg = true) rp → target (Path "/" rp) fs = rp.
Proof. intros Hrp. unfold target, start. cbn. by rewrite SimWalk.steps_plain. Qed.

(** What the record holds under a clean absolute root. *)
Lemma recorded_under_absolute (rp : list string) (fs : fsys) (x : string) :
  Forall (λ seg, plain seg = true) rp →
  recorded_below (Path "/" rp) fs x →
  ∃ above label,
    Forall (λ seg, plain seg = true) (above ++ [label]) ∧
    x = to_str (Path "/" (rp ++ above ++ [label])).
Proof.
  intros Hrp (p & segs & res & rr & _ & Hne & Hall & -> & Hres & -> & _).
  injection Hres as <-. cbn [anchor parts].
  rewrite SimWalk.target_plain, target_absolute_plain by done.
  destruct segs as [|label above _] using rev_ind; [done|].
  by exists above, label.
Qed.

(** On the simulated world [print] raises nothing but the error of the
    encoding. *)
Lemma sim_print_raises (e : exn) :
  print_raises (W := fsys) e → e = UnicodeEncodeError.
Proof.
  intros (e0 & w & He). revert He. cbn. unfold sim_print.
  destruct (console_ok w); cbn; congruence.
Qed.

(** X16. On the simulated world, under a clean absolute root and with
    ordinary names, the tree section of the report cannot fail: every
    recorded path is the root followed by segments and gets the line of
    its depth, so [generate] raises for nothing but a name that is not a
    string or a standard output that cannot encode the messages. *)
Theorem sim_report_is_indented (config : yaml) (rp : list string) (fs : fsys) :
  Forall (λ seg, plain seg = true) rp →
  plain_names config = true →
  (∀ x, x ∈ created_dirs (generate config (Path "/" rp) (init fs)).2 →
        ∃ above label,
          x = to_str (Path "/" (rp ++ above ++ [label])) ∧
          tree_line (Path "/" rp) x
            = Ok (times "    " (length above) +:+ "- " +:+ label)) ∧
  escapes (generate config (Path "/" rp) (init fs)).1
    [AttributeError; TypeError; UnicodeEncodeError].
Proof.
  intros Hrp Hnames.
  assert (∀ x, recorded_below (Path "/" rp) fs x →
            ∃ above label,
              x = to_str (Path "/" (rp ++ above ++ [label])) ∧
              tree_line (Path "/" rp) x
                = Ok (times "    " (length above) +:+ "- " +:+ label)) as Hline.
  { intros x (above & label & Hsegs & ->)%recorded_under_absolute; [|done].
    exists above, label. split; [done|].
    apply (Report.tree_line_inside _ _ (Path EmptyString (above ++ [label]))); [|done].
    rewrite Lines.parse_to_str by by apply Forall_app.
    unfold relative_to. cbn [anchor parts]. by rewrite Lines.strip_prefix_app. }
  rewrite Walk.generate_cases. cbn [init world created_dirs log app].
  destruct (_process_node config (Path "/" rp) _) as [rw sw] eqn:Hwalk.
  assert (∀ x, x ∈ created_dirs sw → recorded_below (Path "/" rp) fs x) as Hrec.
  { eapply SimWalk.sim_walk_recorded; [exact Hnames| | |exact Hwalk]; cbn;
      [done|set_solver]. }
  destruct rw as [[]|e].
  - assert (is_ok (dir_tree (Path "/" rp) (sorted (created_dirs sw))) = true) as Hok.
    { apply dir_tree_ok, Forall_forall. intros x Hx%Order.sorted_elem.
      destruct (Hline x (Hrec x Hx)) as (? & ? & _ & ->). done. }
    destruct (generate_readme config (Path "/" rp) _) as [[b|e] s2] eqn:Hreadme;
      destruct (Walk.generate_readme_keeps _ _ _ _ _ Hreadme) as [Hcd _];
      cbn [created_dirs] in Hcd; cbn [fst snd created_dirs escapes]; rewrite Hcd.
    + split; [|done]. intros x Hx. by apply Hline, Hrec.
    + split; [intros x Hx; by apply Hline, Hrec|].
      apply Walk.generate_readme_raises in Hreadme as [[Hd _]|[_ Hp]].
      * cbn [created_dirs] in Hd. by rewrite Hd in Hok.
      * apply sim_print_raises in Hp as ->. set_solver.
  - cbn. split; [intros x Hx; by apply Hline, Hrec|].
    apply Walk.process_raises_name in Hwalk as [->| ->]; set_solver.
Qed.

End SimReport.

(** ** The further properties on sample runs *)

Module MoreRuns.
Import Text Pathlib Py Gen Sim Obs Notions Cases SimWalk.

(** The name [foo] between an ideographic space U+3000 and a space in
    front and a no-break space U+00A0 behind. *)
Lemma padding_is_ignored_witness :
  all_space wide_blank = true ∧ all_space (chr 160) = true ∧
  strip (wide_blank +:+ "foo" +:+ chr 160) = strip "foo" ∧
  leaf_item (parse "R") (str_item (wide_blank +:+ "foo" +:+ chr 160)) (init disk0)
    = leaf_item (parse "R") (str_item "foo") (init disk0) ∧
  branch_item _process_node (parse "R")
      (SStr (wide_blank +:+ "foo" +:+ chr 160), YScalar SNull) (init disk0)
    = branch_item _process_node (parse "R") (SStr "foo", YScalar SNull) (init disk0).
Proof.
  split; [reflexivity|]. split; [reflexivity|].
  apply (More.padding_is_ignored wide_blank (chr 160) "foo" (YScalar SNull)
           (parse "R") (init disk0));
    reflexivity.
Defined.

(** The run on the padded name makes the directory [foo]. *)
Lemma run_padded_name :
  (run (YList [str_item (wide_blank +:+ "foo" +:+ chr 160)]) "R" disk0).1
    = Ok ["/work/R/foo"].
Proof. vm_compute. reflexivity. Qed.

Lemma report_count_matches_witness :
  dir_tree (parse "R") (sorted {[ "/work/R/A"; "/work/R/D" ]})
    = Ok ["- /work/R/A"; "- /work/R/D"] ∧
  length ["- /work/R/A"; "- /work/R/D"] = size ({[ "/work/R/A"; "/work/R/D" ]} : gset string).
Proof.
  split; [vm_compute; reflexivity|].
  apply (More.report_count_matches (parse "R")). vm_compute. reflexivity.
Defined.

(** The name [/tmp/x] with an ideographic space in front and behind. *)
Lemma absolute_name_ignores_root_witness :
  let name := chr 12288 +:+ "/tmp/x" +:+ chr 12288 in
  strip name = String "/" "tmp/x" ∧
  joinpath (parse "R") (strip name) = parse (strip name) ∧
  anchor (parse (strip name)) ≠ EmptyString ∧
  ∃ (ok : bool) (s1 : state fsys),
    _create_dir (parse (strip name)) (init disk0) = (Ok ok, s1) ∧
    leaf_item (parse "R") (str_item name) (init disk0) = (Ok tt, s1) ∧
    attempts (log s1) = attempts (log (init disk0)) ++ [(parse (strip name), ok)].
Proof.
  intros name. split; [reflexivity|].
  apply (More.absolute_name_ignores_root name "tmp/x" (parse "R") (init disk0)).
  reflexivity.
Defined.

Lemma complete_when_nothing_fails_witness :
  all_names_str tree_abcd = true ∧
  no_failure (log (run tree_abcd "R" disk0).2) ∧
  attempts (log (run tree_abcd "R" disk0).2)
    = (λ p, (p, true)) <$> plan tree_abcd (parse "R") ∧
  (_process_node tree_abcd (parse "R") (State disk0 ∅ [Started])).1 = Ok tt ∧
  (∀ e, (run tree_abcd "R" disk0).1 = Raise e → e = IndexError ∨ print_raises e).
Proof.
  split; [reflexivity|]. split; [vm_compute; repeat constructor|].
  apply (More.complete_when_nothing_fails tree_abcd (parse "R") disk0).
  - reflexivity.
  - vm_compute. repeat constructor.
Defined.

Lemma record_matches_log_witness :
  "/work/R/A" ∈ created_dirs (run tree_abcd "R" disk0).2 ↔
  ∃ p r, (p, true) ∈ attempts (log (run tree_abcd "R" disk0).2) ∧
         path_resolve p (world (run tree_abcd "R" disk0).2) = Ok r ∧
         "/work/R/A" = to_str r.
Proof. apply (More.record_matches_log tree_abcd (parse "R") disk0 "/work/R/A"). Defined.

Lemma created_dirs_exist_witness :
  (parse "R/A", true) ∈ attempts (log (run tree_abcd "R" disk0).2) ∧
  path_exists (parse "R/A") (world (run tree_abcd "R" disk0).2) = true.
Proof.
  assert ((parse "R/A", true) ∈ attempts (log (run tree_abcd "R" disk0).2)) as Hin.
  { vm_compute. constructor. }
  split; [exact Hin|].
  exact (More.created_dirs_exist tree_abcd (parse "R") disk0 (parse "R/A") Hin).
Defined.

Lemma relative_root_lists_full_paths_witness :
  anchor (parse "R") = EmptyString ∧
  dir_tree (parse "R") ["/work/R/A"; "/work/R/D"]
    = Ok ((λ d, "- " +:+ d) <$> ["/work/R/A"; "/work/R/D"]).
Proof.
  split; [reflexivity|].
  apply (Lines.relative_root_lists_full_paths (parse "R")); [reflexivity|].
  repeat constructor; eexists; reflexivity.
Defined.

Lemma line_under_absolute_root_witness :
  tree_line (Path "/" ["R"]) (to_str (Path "/" (["R"] ++ ["A"] ++ ["B"])))
    = Ok (times "    " (length ["A"]) +:+ "- " +:+ "B").
Proof.
  apply (Lines.line_under_absolute_root ["R"] ["A"] "B"); repeat constructor.
Defined.

Lemma sim_report_is_indented_witness :
  (∀ x, x ∈ created_dirs (generate tree_abcd (Path "/" ["R"]) (init disk0)).2 →
        ∃ above label,
          x = to_str (Path "/" (["R"] ++ above ++ [label])) ∧
          tree_line (Path "/" ["R"]) x
            = Ok (times "    " (length above) +:+ "- " +:+ label)) ∧
  escapes (generate tree_abcd (Path "/" ["R"]) (init disk0)).1
    [AttributeError; TypeError; UnicodeEncodeError].
Proof.
  apply (SimReport.sim_report_is_indented tree_abcd ["R"] disk0);
    [repeat constructor|reflexivity].
Defined.

(** The report of the sample tree under the absolute root [/R]. *)
Lemma report_abcd_absolute :
  (run tree_abcd "/R" disk0).1 = Ok ["/R/A"; "/R/A/B"; "/R/A/C"; "/R/D"] ∧
  dir_tree (parse "/R") ["/R/A"; "/R/A/B"; "/R/A/C"; "/R/D"]
    = Ok ["- A"; "    - B"; "    - C"; "- D"].
Proof. split; vm_compute; reflexivity. Qed.

(** A standard output that cannot encode the messages: the report is
    written, and the exception of [print] leaves [generate]. *)
Lemma run_mute_console :
  (run tree_abcd "R" disk_mute).1 = Raise UnicodeEncodeError ∧
  is_file ["work"; "README.md"] (world (run tree_abcd "R" disk_mute).2) = true ∧
  size (created_dirs (run tree_abcd "R" disk_mute).2) = 4.
Proof. split_and!; vm_compute; reflexivity. Qed.

(** C1 as stated fails: in [{A: {B: null}, 'A/B': null}] the second key
    names a path of two segments; [R/A] cannot be created, its child [B]
    is skipped, and yet the second key makes the walk attempt [R/A/B],
    below the failed path. *)
Lemma slash_name_reaches_below_failed :
  plain_names tree_slash = false ∧
  attempts (log (run tree_slash "R" disk_no_A).2)
    = [(parse "R/A", false); (parse "R/A/B", false)] ∧
  strictly_below (parse "R/A") (parse "R/A/B").
Proof.
  split; [reflexivity|]. split; [vm_compute; reflexivity|].
  split; [reflexivity|]. exists ["B"]. by split.
Qed.

(** [{A: {B: [C]}, D: null}] where [R/A] cannot be created. *)
Lemma branch_short_circuit_witness :
  plain_names tree_nested_d = true ∧
  attempts (log (run tree_nested_d "R" disk_no_A).2)
    = [(parse "R/A", false); (parse "R/D", true)] ∧
  (∀ q b, (q, b) ∈ attempts (log (run tree_nested_d "R" disk_no_A).2) →
          ¬ strictly_below (parse "R/A") q) ∧
  (∀ x, x ∈ created_dirs (run tree_nested_d "R" disk_no_A).2 →
        ∃ q r, (q, true) ∈ attempts (log (run tree_nested_d "R" disk_no_A).2) ∧
               path_resolve q (world (run tree_nested_d "R" disk_no_A).2) = Ok r ∧
               x = to_str r ∧ ¬ strictly_below (parse "R/A") q).
Proof.
  assert (attempts (log (run tree_nested_d "R" disk_no_A).2)
          = [(parse "R/A", false); (parse "R/D", true)]) as Hatt
    by (vm_compute; reflexivity).
  split; [reflexivity|]. split; [exact Hatt|].
  apply (proj2 (ShortCircuit.branch_short_circuit (W := fsys))
           tree_nested_d (parse "R") disk_no_A (parse "R/A")).
  - reflexivity.
  - unfold run in Hatt. rewrite Hatt. left.
Defined.

End MoreRuns.
